(** * pycolleff.process_wakes: wake potential to impedance, loss and kick factors

    A shallow embedding of [src/pycolleff/process_wakes.py] and the
    properties of its numerical core.

    Numbers.  Every float64 of the program is read as a real number: rounding,
    overflow and underflow are left out, and the operations of numpy that
    would continue with [inf] or [nan] (a division by zero on a numpy scalar
    or array) end the run of the model with the outcome [NotFinite].  Two
    places go further.  The factor computed from the wake at a bunch length
    of 0 (the value the constructor of [Simpar] leaves) is followed to the
    [nan] that the program stores.  The bunch-length scan is also given in
    binary64 ([F64]), where rounding decides whether neighbouring points
    differ.  Python exceptions are outcomes [Raise e].

    State.  The functions of the module update the structure [globdata] in
    place and return it; the model passes the structure in and gives the
    updated structure of a call that returns. *)

From Stdlib Require Import String Ascii Reals Lra Lia ZArith Bool List.
From Stdlib Require Import Sorted.
From Stdlib Require PrimFloat.
Import ListNotations.
Open Scope R_scope.

(* ================================================================== *)
(** ** Python: exceptions and outcomes *)

Module Py.

(** The exceptions the module can meet.  [DataConsistencyError] is the name
    the specification uses; no statement of the module raises it. *)
Inductive exn : Set :=
| IndexError
| ValueError
| ZeroDivisionError
| NameError
| UnboundLocalError
| AttributeError
| OSError
| DataConsistencyError.

Inductive outcome (A : Type) : Type :=
| Ret (a : A)
| Raise (e : exn)
| NotFinite.

Arguments Ret {A} a.
Arguments Raise {A} e.
Arguments NotFinite {A}.

Definition bind {A B : Type} (c : outcome A) (k : A -> outcome B) : outcome B :=
  match c with
  | Ret a => k a
  | Raise e => Raise e
  | NotFinite => NotFinite
  end.

(** [for x in l: ys.append(f x)], stopping at the first failure. *)
Fixpoint mapM {A B : Type} (f : A -> outcome B) (l : list A) : outcome (list B) :=
  match l with
  | [] => Ret []
  | x :: l' =>
      bind (f x) (fun y => bind (mapM f l') (fun ys => Ret (y :: ys)))
  end.

(** A local variable that some branches never assign. *)
Definition lookup {A : Type} (v : option A) : outcome A :=
  match v with
  | Some x => Ret x
  | None => Raise UnboundLocalError
  end.

(** [a[i]] on a sequence, negative indices counted from the end. *)
Definition getitem {A : Type} (a : list A) (i : Z) : outcome A :=
  let n := Z.of_nat (length a) in
  let j := if (i <? 0)%Z then (n + i)%Z else i in
  if ((0 <=? j) && (j <? n))%Z
  then match nth_error a (Z.to_nat j) with
       | Some x => Ret x
       | None => Raise IndexError
       end
  else Raise IndexError.

(** Bounds of a slice [a[start:stop]]. *)
Definition clamp (n : nat) (i : Z) : nat :=
  if (i <? 0)%Z then Z.to_nat (Z.max 0 (Z.of_nat n + i))
  else Nat.min n (Z.to_nat i).

Definition slice {A : Type} (a : list A) (start stop : Z) : list A :=
  let b := clamp (length a) start in
  let e := clamp (length a) stop in
  firstn (e - b) (skipn b a).

(** Division of two Python floats. *)
Definition truediv (a b : R) : outcome R :=
  if Req_dec_T b 0 then Raise ZeroDivisionError else Ret (a / b).

(** Comparisons of floats, as booleans. *)
Definition leb (x y : R) : bool := if Rle_dec x y then true else false.
Definition ltb (x y : R) : bool := if Rlt_dec x y then true else false.
Definition eqb (x y : R) : bool := if Req_dec_T x y then true else false.

(** [str.upper] on ASCII letters. *)
Definition upper_ascii (a : ascii) : ascii :=
  let n := nat_of_ascii a in
  if ((97 <=? n) && (n <=? 122))%nat then ascii_of_nat (n - 32) else a.

Fixpoint upper (s : string) : string :=
  match s with
  | EmptyString => EmptyString
  | String a s' => String (upper_ascii a) (upper s')
  end.

(** The character [chr(34)], for the texts that contain it. *)
Definition dq : string := String (ascii_of_nat 34) EmptyString.

(** [os.path.sep.join(parts)], the separator being the slash. *)
Definition path_join (parts : list string) : string := String.concat "/" parts.

Definition startswith (s p : string) : bool := String.prefix p s.

End Py.

Import Py.

Notation "x <- c ;; k" := (bind c (fun x => k))
  (at level 61, c at next level, right associativity).

(* ================================================================== *)
(** ** numpy: the array functions the module calls *)

Module Np.

(** Complex numbers as pairs (real part, imaginary part). *)
Definition cplx : Type := (R * R)%type.

Definition cadd (a b : cplx) : cplx := (fst a + fst b, snd a + snd b).
Definition cmul (a b : cplx) : cplx :=
  (fst a * fst b - snd a * snd b, fst a * snd b + snd a * fst b).
Definition cscale (r : R) (a : cplx) : cplx := (r * fst a, r * snd a).
Definition cdivr (a : cplx) (r : R) : cplx := (fst a / r, snd a / r).
(** [exp(1j * t)] *)
Definition cis (t : R) : cplx := (cos t, sin t).
Definition csum (l : list cplx) : cplx := fold_right cadd (0, 0) l.

Definition sum (l : list R) : R := fold_right Rplus 0 l.

(** Elementwise operation on two arrays known to have one length. *)
Fixpoint zip_with {A B C : Type} (f : A -> B -> C) (a : list A) (b : list B) : list C :=
  match a, b with
  | x :: a', y :: b' => f x y :: zip_with f a' b'
  | _, _ => []
  end.

(** Elementwise operation with numpy's broadcasting of one-dimensional
    arrays: equal lengths, or one side of length 1; otherwise ValueError. *)
Definition broadcast (f : R -> R -> R) (a b : list R) : outcome (list R) :=
  if (length a =? length b)%nat then Ret (zip_with f a b)
  else if (length a =? 1)%nat then Ret (map (f (hd 0 a)) b)
  else if (length b =? 1)%nat then Ret (map (fun x => f x (hd 0 b)) a)
  else Raise ValueError.

(** Division of a numpy scalar: a zero divisor gives inf or nan and a
    warning, no exception. *)
Definition scalar_div (a b : R) : outcome R :=
  if Req_dec_T b 0 then NotFinite else Ret (a / b).

(** Division of an array by a scalar; an empty array divides silently. *)
Definition array_div_scalar (a : list R) (b : R) : outcome (list R) :=
  match a with
  | [] => Ret []
  | _ => if Req_dec_T b 0 then NotFinite else Ret (map (fun x => x / b) a)
  end.

(** Elementwise division of two arrays of one length. *)
Definition array_div (a b : list R) : outcome (list R) :=
  if existsb (fun y => eqb y 0) b then NotFinite else Ret (zip_with Rdiv a b).

(** [a[mask]] for a boolean mask of the length of [a]. *)
Fixpoint select {A : Type} (mask : list bool) (a : list A) : list A :=
  match mask, a with
  | b :: mask', x :: a' => if b then x :: select mask' a' else select mask' a'
  | _, _ => []
  end.

(** [numpy.hanning(M)]: [w(n) = 0.5 - 0.5 cos(2 pi n / (M-1))], [0 <= n < M]. *)
Definition hanning (M : nat) : list R :=
  match M with
  | O => []
  | S O => [1]
  | _ => map (fun n => 0.5 - 0.5 * cos (2 * PI * INR n / INR (M - 1))) (seq 0 M)
  end.

(** [numpy.fft.fft] of a real array: [X_k = sum_n x_n exp(-2 pi i k n / N)];
    an empty array is refused. *)
Definition fft (x : list R) : outcome (list cplx) :=
  match x with
  | [] => Raise ValueError
  | _ =>
      let N := length x in
      Ret (map (fun k =>
             csum (map (fun nx =>
                     cscale (snd nx)
                       (cis (- (2 * PI * INR k * INR (fst nx) / INR N))))
                   (combine (seq 0 N) x)))
           (seq 0 N))
  end.

(** [numpy.fft.fftfreq(n, d)]: [[0, 1, ..., (n-1)//2, -(n//2), ..., -1] / (d n)]. *)
Definition fftfreq (n : nat) (d : R) : outcome (list R) :=
  val <- scalar_div 1 (INR n * d) ;;
  let N := match n with O => O | S n' => S (n' / 2) end in
  let p1 := map INR (seq 0 N) in
  let p2 := map (fun j => IZR (Z.of_nat j - Z.of_nat (n / 2))) (seq 0 (n / 2)) in
  Ret (map (fun r => r * val) (p1 ++ p2)).

(** [numpy.roll(a, shift)] for [0 <= shift]: element [i] moves to
    [(i + shift) mod n]. *)
Definition roll {A : Type} (a : list A) (shift : nat) : list A :=
  match length a with
  | O => a
  | n => let r := (n - shift mod n)%nat in skipn r a ++ firstn r a
  end.

(** [numpy.linspace(start, stop, num)] with the end point included. *)
Definition linspace (start stop : R) (num : nat) : list R :=
  let div := (num - 1)%nat in
  let y := map INR (seq 0 num) in
  let delta := stop - start in
  if (0 <? div)%nat then
    let step := delta / INR div in
    let y := if eqb step 0
             then map (fun v => v / INR div * delta) y
             else map (fun v => v * step) y in
    let y := map (fun v => v + start) y in
    removelast y ++ [stop]
  else
    map (fun v => v * delta + start) y.

(** [numpy.diff(x)] *)
Definition diff (x : list R) : list R := zip_with Rminus (tl x) (removelast x).

(** [numpy.trapz(y, x=x)]:
    [(diff(x) * (y[1:] + y[:-1]) / 2.0).sum()]. *)
Definition trapz (y x : list R) : outcome R :=
  let d := diff x in
  p <- broadcast Rmult d (zip_with Rplus (tl y) (removelast y)) ;;
  Ret (sum (map (fun v => v / 2) p)).

(** A float64 scalar as a computation stores it: a real number, or [nan]. *)
Inductive scalar : Type :=
| Finite (r : R)
| NaN.

(** [numpy.trapz(y, x=x)] when each of the [ny] samples of [y] is nan.  The
    shapes are checked as always: [y[1:] + y[:-1]] has [ny - 1] entries and is
    multiplied into [diff(x)].  Every term is nan, so the sum is nan, or 0.0
    when there is no term. *)
Definition trapz_nan (ny : nat) (x : list R) : outcome scalar :=
  let d := diff x in
  p <- broadcast Rmult d (repeat 0 (ny - 1)) ;;
  Ret (match p with
       | [] => Finite 0
       | _ :: _ => NaN
       end).

End Np.

(* ================================================================== *)
(** ** numpy in binary64 *)

Module F64.

Import PrimFloat.

(** The float64 of a count: exact up to [2^53]. *)
Fixpoint of_nat (n : nat) : float :=
  match n with
  | O => 0%float
  | S n' => (of_nat n' + 1)%float
  end.

(** [numpy.linspace(start, stop, num)] on float64 scalars, statement by
    statement as [Np.linspace]: every operation rounds to binary64. *)
Definition linspace (start stop : float) (num : nat) : list float :=
  let div := (num - 1)%nat in
  let y := map of_nat (seq 0 num) in
  let delta := (stop - start)%float in
  if (0 <? div)%nat then
    let step := (delta / of_nat div)%float in
    let y := if PrimFloat.eqb step 0%float
             then map (fun v => (v / of_nat div * delta)%float) y
             else map (fun v => (v * step)%float) y in
    let y := map (fun v => (v + start)%float) y in
    removelast y ++ [stop]
  else
    map (fun v => (v * delta + start)%float) y.



End F64.

Import Np.

(* ================================================================== *)
(** ** process_wakes: data *)

(** [class Ringpar] *)
Record Ringpar : Type := mkRingpar {
  circumf : R;      (* ring circumference [m] *)
  omega0 : R;       (* revolution frequency [rad/s] *)
  sigma : R;        (* nominal bunch length [m] *)
  sigmamax : R;     (* maximum bunch length of interest [m] *)
  Iavg : R;         (* beam current [A] *)
  h : Z             (* harmonic number *)
}.

(** [class Simpar].  [sym] is the integer the loader tests for truth
    ([prepare_struct_for_load] stores 1; the empty string of the constructor
    is as false as 0).  The class has no attribute [sigma]. *)
Record Simpar : Type := mkSimpar {
  wakepath : string;
  targetdir : string;
  datasource : string;
  m : Z;
  offset : R;
  sym : Z;
  whichaxis : string;
  units : Z;
  bunlen : R;       (* bunch length used in the simulation [m] *)
  cutoff : R        (* multiple of the bunch frequency kept in the impedance *)
}.

(** [class Results], the attributes the four computations read or write.
    An attribute that holds a scalar after a computation is an [option]:
    [None] stands for the empty array of the constructor, [Some v] for the
    float64 scalar [v] a computation stored. *)
Record Results : Type := mkResults {
  s : list R;
  W : list R;
  freq : list R;
  naxis : list R;
  ReZlong : list R;
  ImZlong : list R;
  ImZoN : list R;
  ImZt : list R;
  ReZt : list R;
  klossW : option scalar;
  klossZ : list R;
  kickW : option scalar;
  kickZ : list R;
  sigmak : list R;
  Ploss : option scalar;
  Plossvec : list R
}.

(** [class GlobData] *)
Record GlobData : Type := mkGlobData {
  ringpar : Ringpar;
  simpar : Simpar;
  results : Results
}.

Definition c_light : R := 299792458.

Definition Ringpar_init : Ringpar :=
  {| circumf := 518.396;
     omega0 := 2 * PI * 299792458 / 518.396;
     sigma := 2.5e-3;
     sigmamax := 15e-3;
     Iavg := 500e-3;
     h := 864 |}.

Definition Simpar_init : Simpar :=
  {| wakepath := EmptyString; targetdir := EmptyString;
     datasource := EmptyString; m := 0; offset := 0; sym := 0;
     whichaxis := EmptyString; units := 0; bunlen := 0e-3; cutoff := 2 |}.

Definition Results_init : Results :=
  {| s := []; W := []; freq := []; naxis := []; ReZlong := []; ImZlong := [];
     ImZoN := []; ImZt := []; ReZt := []; klossW := None; klossZ := [];
     kickW := None; kickZ := []; sigmak := []; Ploss := None; Plossvec := [] |}.

Definition GlobData_init : GlobData :=
  {| ringpar := Ringpar_init; simpar := Simpar_init; results := Results_init |}.

(** Assignments [globdata.results.x = v]. *)
Definition with_results (g : GlobData) (r : Results) : GlobData :=
  {| ringpar := ringpar g; simpar := simpar g; results := r |}.

Definition set_wake (r : Results) (spos wake : list R) : Results :=
  {| s := spos; W := wake; freq := freq r; naxis := naxis r;
     ReZlong := ReZlong r; ImZlong := ImZlong r; ImZoN := ImZoN r;
     ImZt := ImZt r; ReZt := ReZt r; klossW := klossW r; klossZ := klossZ r;
     kickW := kickW r; kickZ := kickZ r; sigmak := sigmak r;
     Ploss := Ploss r; Plossvec := Plossvec r |}.

Definition set_long (r : Results) (fr rez imz nax zon : list R) : Results :=
  {| s := s r; W := W r; freq := fr; naxis := nax;
     ReZlong := rez; ImZlong := imz; ImZoN := zon;
     ImZt := ImZt r; ReZt := ReZt r; klossW := klossW r; klossZ := klossZ r;
     kickW := kickW r; kickZ := kickZ r; sigmak := sigmak r;
     Ploss := Ploss r; Plossvec := Plossvec r |}.

Definition set_trans (r : Results) (fr rez imz : list R) : Results :=
  {| s := s r; W := W r; freq := fr; naxis := naxis r;
     ReZlong := ReZlong r; ImZlong := ImZlong r; ImZoN := ImZoN r;
     ImZt := imz; ReZt := rez; klossW := klossW r; klossZ := klossZ r;
     kickW := kickW r; kickZ := kickZ r; sigmak := sigmak r;
     Ploss := Ploss r; Plossvec := Plossvec r |}.

Definition set_loss (r : Results) (kZi sigi plossvec : list R) (kW ploss : scalar)
  : Results :=
  {| s := s r; W := W r; freq := freq r; naxis := naxis r;
     ReZlong := ReZlong r; ImZlong := ImZlong r; ImZoN := ImZoN r;
     ImZt := ImZt r; ReZt := ReZt r; klossW := Some kW; klossZ := kZi;
     kickW := kickW r; kickZ := kickZ r; sigmak := sigi;
     Ploss := Some ploss; Plossvec := plossvec |}.

Definition set_kick (r : Results) (kickZi sigi : list R) (kW : scalar) : Results :=
  {| s := s r; W := W r; freq := freq r; naxis := naxis r;
     ReZlong := ReZlong r; ImZlong := ImZlong r; ImZoN := ImZoN r;
     ImZt := ImZt r; ReZt := ReZt r; klossW := klossW r; klossZ := klossZ r;
     kickW := Some kW; kickZ := kickZi; sigmak := sigi;
     Ploss := Ploss r; Plossvec := Plossvec r |}.

(** [prepare_struct_for_load(newdir, m, sigma, rootdir, code)]; the
    directory it may create is not part of the model. *)
Definition prepare_struct_for_load
  (newdir : option string) (m0 : Z) (sigma0 : R) (rootdir code : string) : GlobData :=
  let newdir' :=
    match newdir with
    | None | Some EmptyString => rootdir
    | Some d => path_join [rootdir; d]
    end in
  {| ringpar := Ringpar_init;
     simpar := {| wakepath := rootdir; targetdir := newdir'; datasource := code;
                  m := m0; offset := 0; sym := 1; whichaxis := "y"; units := 1;
                  bunlen := sigma0; cutoff := 2 |};
     results := Results_init |}.

(* ================================================================== *)
(** ** process_wakes: load_wake *)

(** A line of a wake file: its text, and the floats [numpy.loadtxt] reads
    from it ([None] when the text is not numeric, [Some []] for a blank or
    comment line, which [loadtxt] skips). *)
Record line : Type := mkLine {
  text : string;
  numbers : option (list R)
}.

Definition file : Type := list line.

(** The files under the wake directory, by path. *)
Definition filesystem : Type := string -> option file.

(** The rows [loadtxt] builds from the lines left after [skiprows]. *)
Fixpoint parse_rows (ls : list line) : outcome (list (list R)) :=
  match ls with
  | [] => Ret []
  | l :: ls' =>
      match numbers l with
      | None => Raise ValueError
      | Some [] => parse_rows ls'
      | Some r =>
          rows <- parse_rows ls' ;;
          match rows with
          | [] => Ret [r]
          | r' :: _ =>
              if (length r =? length r')%nat then Ret (r :: rows)
              else Raise ValueError
          end
      end
  end.

(** [numpy.loadtxt(path, skiprows=n)] *)
Definition loadtxt (fs : filesystem) (path : string) (skiprows : nat)
  : outcome (list (list R)) :=
  match fs path with
  | None => Raise OSError
  | Some f => parse_rows (skipn skiprows f)
  end.

(** [a[:, j]] on what [loadtxt] returned.  [loadtxt] squeezes its result: with
    fewer than two rows or fewer than two columns the array has one
    dimension and the two-index expression raises IndexError. *)
Definition column (a : list (list R)) (j : nat) : outcome (list R) :=
  match a with
  | r0 :: _ :: _ =>
      if ((2 <=? length r0) && (j <? length r0))%nat
      then Ret (map (fun r => nth j r 0) a)
      else Raise IndexError
  | _ => Raise IndexError
  end.

(** The third line of a file, as three calls of [readline] leave it. *)
Definition third_line (fs : filesystem) (path : string) : outcome string :=
  match fs path with
  | None => Raise OSError
  | Some f => Ret (nth 2 (map text f) EmptyString)
  end.

(** The module calls [textscan] and neither defines nor imports it: the
    look-up of the global name fails. *)
Definition textscan (line format : string) : outcome (list R) := Raise NameError.

(** [globdata.simpar.sigma]: [Simpar] has no such attribute (the bunch length
    of the simulation is [bunlen]; [sigma] belongs to [Ringpar]). *)
Definition simpar_sigma (sp : Simpar) : outcome R := Raise AttributeError.

(** The local variables the first part of [load_wake] may leave unassigned. *)
Record paths : Type := mkPaths {
  p_wakepath : option string;
  p_headerL : option nat;
  p_shiftpath : option string;
  p_wakepath1 : option string;
  p_wakepath2 : option string;
  p_wakepath3 : option string;
  p_wakepath4 : option string
}.

Definition no_paths : paths :=
  {| p_wakepath := None; p_headerL := None; p_shiftpath := None;
     p_wakepath1 := None; p_wakepath2 := None; p_wakepath3 := None;
     p_wakepath4 := None |}.

Definition truthy (z : Z) : bool := negb (z =? 0)%Z.

(** "Setting complete path for loading". *)
Definition select_paths (dsrc : string) (m0 sym0 : Z) (whaxis wdir : string) : paths :=
  let WX := ("Results-W" ++ upper whaxis ++ "_AT_XY.0001")%string in
  let WX2 := ("Results-W" ++ upper whaxis ++ "_AT_XY.0002")%string in
  if startswith dsrc "ACE3P" then
    {| p_wakepath := Some (path_join [wdir; "wakefield.out"%string]);
       p_headerL := Some 3%nat; p_shiftpath := None; p_wakepath1 := None;
       p_wakepath2 := None; p_wakepath3 := None; p_wakepath4 := None |}
  else if startswith dsrc "GdfidL" then
    if (m0 =? 0)%Z then
      {| p_wakepath := Some (path_join [wdir; "Results-Wq_AT_XY.0001"%string]);
         p_headerL := Some 11%nat; p_shiftpath := None; p_wakepath1 := None;
         p_wakepath2 := None; p_wakepath3 := None; p_wakepath4 := None |}
    else if (m0 =? 1)%Z then
      if truthy sym0 then
        {| p_wakepath := None; p_headerL := Some 11%nat;
           p_shiftpath := Some (path_join [wdir; "Results-Wq_AT_XY.0001"%string]);
           p_wakepath1 := Some (path_join [wdir; WX]);
           p_wakepath2 := Some (path_join [wdir; WX2]);
           p_wakepath3 := None; p_wakepath4 := None |}
      else
        {| p_wakepath := None; p_headerL := Some 11%nat;
           p_shiftpath :=
             Some (path_join [wdir; "dxdpl"; "Results-Wq_AT_XY.0001"]%string);
           p_wakepath1 := Some (path_join [wdir; ("d" ++ whaxis ++ "dpl")%string; WX]);
           p_wakepath2 := Some (path_join [wdir; ("d" ++ whaxis ++ "dpl")%string; WX2]);
           p_wakepath3 := Some (path_join [wdir; ("d" ++ whaxis ++ "dmi")%string; WX]);
           p_wakepath4 := Some (path_join [wdir; ("d" ++ whaxis ++ "dmi")%string; WX2]) |}
    else if (m0 =? 2)%Z then
      {| p_wakepath := None; p_headerL := Some 11%nat; p_shiftpath := None;
         p_wakepath1 := Some (path_join [wdir; WX]);
         p_wakepath2 := if truthy sym0 then None else Some (path_join [wdir; WX2]);
         p_wakepath3 := None; p_wakepath4 := None |}
    else
      {| p_wakepath := None; p_headerL := Some 11%nat; p_shiftpath := None;
         p_wakepath1 := None; p_wakepath2 := None; p_wakepath3 := None;
         p_wakepath4 := None |}
  else if startswith dsrc "CST" then
    {| p_wakepath := Some (path_join [wdir; "wake.txt"%string]);
       p_headerL := Some 2%nat; p_shiftpath := None; p_wakepath1 := None;
       p_wakepath2 := None; p_wakepath3 := None; p_wakepath4 := None |}
  else if startswith dsrc "ECHO" then
    if (m0 =? 0)%Z then
      {| p_wakepath := Some (path_join [wdir; "wake.dat"%string]);
         p_headerL := Some 0%nat; p_shiftpath := None; p_wakepath1 := None;
         p_wakepath2 := None; p_wakepath3 := None; p_wakepath4 := None |}
    else if (0 <? m0)%Z then
      if truthy sym0 then
        {| p_wakepath := Some (path_join [wdir; "wakeT.dat"%string]);
           p_headerL := Some 0%nat; p_shiftpath := None; p_wakepath1 := None;
           p_wakepath2 := None; p_wakepath3 := None; p_wakepath4 := None |}
      else no_paths
    else no_paths
  else no_paths.

(** "Read specified file(s)": the positions and the wake, before the
    adjustment of the s axis. *)
Definition read_files (fs : filesystem) (p : paths)
  (dsrc : string) (m0 sym0 : Z) (whaxis : string) : outcome (list R * list R) :=
  if negb (startswith dsrc "GdfidL") then
    wp <- lookup (p_wakepath p) ;;
    hl <- lookup (p_headerL p) ;;
    loadres <- loadtxt fs wp hl ;;
    spos <- column loadres 0 ;;
    col <- column loadres 1 ;;
    Ret (spos, if (m0 =? 0)%Z then map Ropp col else col)
  else if (m0 =? 0)%Z then
    (* wake = -loadres[:,1] with loadres never assigned *)
    Raise UnboundLocalError
  else if (m0 =? 1)%Z then
    wp1 <- lookup (p_wakepath1 p) ;;
    hl <- lookup (p_headerL p) ;;
    loadres1 <- loadtxt fs wp1 hl ;;
    wp2 <- lookup (p_wakepath2 p) ;;
    loadres2 <- loadtxt fs wp2 hl ;;
    spos <- column loadres1 0 ;;
    c1 <- column loadres1 1 ;;
    c2 <- column loadres2 1 ;;
    sum12 <- broadcast Rplus c1 c2 ;;
    let wabs := map (fun v => v / 2) sum12 in
    wabs <- (if negb (truthy sym0) then
               wp3 <- lookup (p_wakepath3 p) ;;
               loadres3 <- loadtxt fs wp3 hl ;;
               wp4 <- lookup (p_wakepath4 p) ;;
               loadres4 <- loadtxt fs wp4 hl ;;
               c3 <- column loadres3 1 ;;
               c4 <- column loadres4 1 ;;
               sum34 <- broadcast Rplus c3 c4 ;;
               let wabs2 := map (fun v => v / 2) sum34 in
               d <- broadcast Rminus wabs wabs2 ;;
               Ret (map (fun v => v / 2) d)
             else Ret wabs) ;;
    sp <- lookup (p_shiftpath p) ;;
    loadres5 <- third_line fs sp ;;
    coord <- textscan loadres5
               (" %% subtitle= " ++ dq ++ "W_l (x,y)= ( %f, %f ) [m]" ++ dq)%string ;;
    shift <- (if startswith whaxis "x" then getitem coord 1
              else if startswith whaxis "y" then getitem coord 2
              else Raise UnboundLocalError) ;;
    wake <- array_div_scalar wabs shift ;;
    Ret (spos, wake)
  else if (m0 =? 2)%Z then
    wp1 <- lookup (p_wakepath1 p) ;;
    hl <- lookup (p_headerL p) ;;
    loadres1 <- loadtxt fs wp1 hl ;;
    spos <- column loadres1 0 ;;
    wabs <- column loadres1 1 ;;
    wabs <- (if truthy (- sym0 - 1)%Z then   (* ~sym *)
               wp2 <- lookup (p_wakepath2 p) ;;
               loadres2 <- loadtxt fs wp2 hl ;;
               w2 <- column loadres2 1 ;;
               d <- broadcast Rminus wabs w2 ;;
               Ret (map (fun v => v / 2) d)
             else Ret wabs) ;;
    loadres5 <- third_line fs wp1 ;;
    shift <- (if startswith whaxis "x" then
                coord <- textscan loadres5
                           (" %% subtitle= " ++ dq ++
                            "integral d/dx W(z) dz, (x,y)=( %f, %f )" ++ dq)%string ;;
                getitem coord 1
              else if startswith whaxis "y" then
                coord <- textscan loadres5
                           (" %% subtitle= " ++ dq ++
                            "integral d/dy W(z) dz, (x,y)=( %f, %f )" ++ dq)%string ;;
                getitem coord 2
              else Raise UnboundLocalError) ;;
    wake <- array_div_scalar (map Ropp wabs) shift ;;
    Ret (spos, wake)
  else
    (* no branch assigns wake: globdata.results.W = wake fails *)
    Raise UnboundLocalError.

(** [load_wake(globdata)].  The copies of the files into the target
    directory ([cpfile]) write outside the structure and are left out. *)
Definition load_wake (fs : filesystem) (g : GlobData) : outcome GlobData :=
  let nsigmas := 5 in
  let dsrc := datasource (simpar g) in
  let m0 := m (simpar g) in
  let sym0 := sym (simpar g) in
  let whaxis := whichaxis (simpar g) in
  let wdir := wakepath (simpar g) in
  let p := select_paths dsrc m0 sym0 whaxis wdir in
  sw <- read_files fs p dsrc m0 sym0 whaxis ;;
  let spos := fst sw in
  let wake := snd sw in
  sw' <- (if startswith dsrc "ACE3P" then
            sig <- simpar_sigma (simpar g) ;;
            Ret (map (fun x => x - nsigmas * sig) spos, wake)
          else if startswith dsrc "CST" then
            Ret (map (fun x => x / 1000) spos,
                 if (0 <? m0)%Z then map Ropp wake else wake)
          else if startswith dsrc "ECHO" then
            Ret (map (fun x => x / 100) spos, wake)
          else Ret (spos, wake)) ;;
  Ret (with_results g (set_wake (results g) (fst sw') (snd sw'))).

(* ================================================================== *)
(** ** process_wakes: calc_impedance *)

(** [numpy.hanning(2*N)[N-1:-1]] for a wake of [N] samples. *)
Definition window (N : nat) : list R :=
  slice (hanning (2 * N)) (Z.of_nat N - 1) (-1).

(** The second mask of mode 0:
    [logical_and(2*pi*abs(freq) < 20e9, freq != 0)]. *)
Definition zon_mask (fr : list R) : list bool :=
  map (fun f => ltb (2 * PI * Rabs f) 20e9 && negb (eqb f 0)) fr.

(** [calc_impedance(globdata)] *)
Definition calc_impedance (g : GlobData) : outcome GlobData :=
  let m0 := m (simpar g) in
  let sigs := bunlen (simpar g) in
  let wake := map (fun x => x * 1e12) (W (results g)) in
  let saxis := s (results g) in
  let f0 := omega0 (ringpar g) / (2 * PI) in
  let c := c_light in
  let sigt := sigs / c in
  s_last <- getitem saxis (-1) ;;
  s_first <- getitem saxis 0 ;;
  dt0 <- scalar_div (s_last - s_first) (INR (length saxis) - 1) ;;
  let dt := dt0 / c in
  let N := length wake in
  fftt <- fft (zip_with Rmult wake (window N)) ;;
  fr <- fftfreq N dt ;;
  let fftt := roll fftt (N / 2) in
  let fr := roll fr (N / 2) in
  let w := map (fun f => 2 * PI * f) fr in
  let shift := map (fun wi => cis (- (wi * s_first / c))) w in
  let VHat := zip_with cmul (map (cscale dt) shift) fftt in
  let Jwlist := map (fun wi => exp (- (wi * sigt) ^ 2 / 2)) w in
  let Z := zip_with cdivr VHat Jwlist in
  wmax <- truediv (cutoff (simpar g)) sigt ;;
  let indcs := map (fun wi => leb (Rabs wi) wmax) w in
  if (m0 =? 0)%Z then
    let fr' := select indcs fr in
    let rez := map fst (select indcs Z) in
    let imz := map (fun z => - snd z) (select indcs Z) in
    let indcs2 := zon_mask fr' in
    nax <- array_div_scalar (select indcs2 fr') f0 ;;
    zon <- array_div (select indcs2 imz) nax ;;
    Ret (with_results g (set_long (results g) fr' rez imz nax zon))
  else if (0 <? m0)%Z then
    let fr' := select indcs fr in
    Ret (with_results g
           (set_trans (results g) fr'
              (map snd (select indcs Z)) (map fst (select indcs Z))))
  else Ret g.

(* ================================================================== *)
(** ** process_wakes: calc_loss_factor and calc_kick_factor *)

(** The body of the loops over bunch lengths:
    [trapz(Z*exp(-ksq*sig**2), x=k) * c / (2*pi) * 1e-12]. *)
Definition kfactor (Zs k : list R) (sig : R) : outcome R :=
  let ksq := map (fun q => q ^ 2) k in
  let rhok := map (fun q => exp (- q * sig ^ 2)) ksq in
  y <- broadcast Rmult Zs rhok ;;
  t <- trapz y k ;;
  Ret (t * c_light / (2 * PI) * 1e-12).

(** The time-domain factor: [trapz(wake*rhos, x=saxis)] with the Gaussian
    density [rhos = (1/(sigs*sqrt(2*pi)))*exp(-ss/(2*sigs**2))] of the
    simulated bunch.  At [sigs = 0] both divisions are numpy's and raise
    nothing: [1/(sigs*sqrt(2*pi))] is inf and [-ss/(2*sigs**2)] is -inf or
    nan, so each sample of [rhos] is inf*0 or inf*nan, that is nan, and so is
    each sample of [wake*rhos]; only the shapes still matter. *)
Definition wfactor (wake saxis : list R) (sigs : R) : outcome scalar :=
  let ss := map (fun x => x ^ 2) saxis in
  if Req_dec_T sigs 0 then
    y <- broadcast Rmult wake ss ;;
    trapz_nan (length y) saxis
  else
    let norm := 1 / (sigs * sqrt (2 * PI)) in
    let rhos := map (fun q => norm * exp (- q / (2 * sigs ^ 2))) ss in
    y <- broadcast Rmult wake rhos ;;
    kW <- trapz y saxis ;;
    Ret (Finite kW).

Definition sigvec : list R :=
  map (fun v => v * 1e-3) [2.65; 5.3; 2.65; 4; 10; 10].

Definition Ivec : list R :=
  map (fun v => v * 1e-3) [500; 500; 10; 110; 110; 500].

(** [calc_loss_factor(globdata)]; the three printed lines are left out. *)
Definition calc_loss_factor (g : GlobData) : outcome GlobData :=
  let hn := h (ringpar g) in
  T0 <- truediv (2 * PI) (omega0 (ringpar g)) ;;
  let Iav := Iavg (ringpar g) in
  let sigs := bunlen (simpar g) in
  let wake := W (results g) in
  let saxis := s (results g) in
  let fr := freq (results g) in
  let ReZ := ReZlong (results g) in
  let c := c_light in
  let k := map (fun f => f * 2 * PI / c) fr in
  let sigmax := sigmamax (ringpar g) in
  let sigmin := bunlen (simpar g) in
  let sigi := linspace sigmin sigmax 100 in
  kZi <- mapM (kfactor ReZ k) sigi ;;
  kZvec <- mapM (kfactor ReZ k) sigvec ;;
  Plossvec <- array_div_scalar
                (map (fun v => v * T0 * 1e12)
                   (zip_with Rmult kZvec (map (fun i => i ^ 2) Ivec)))
                (IZR hn) ;;
  kW <- wfactor wake saxis sigs ;;
  Ploss <- match kW with
           | Finite v =>
               p <- scalar_div (v * Iav ^ 2 * T0 * 1e12) (IZR hn) ;;
               Ret (Finite p)
           | NaN => Ret NaN
           end ;;
  Ret (with_results g (set_loss (results g) kZi sigi Plossvec kW Ploss)).

(** [calc_kick_factor(globdata)]; the two printed lines are left out. *)
Definition calc_kick_factor (g : GlobData) : outcome GlobData :=
  let sigs := bunlen (simpar g) in
  let wake := W (results g) in
  let saxis := s (results g) in
  let fr := freq (results g) in
  let ImZ := ImZt (results g) in
  let c := c_light in
  let k := map (fun f => f * 2 * PI / c) fr in
  let sigmax := sigmamax (ringpar g) in
  let sigmin := bunlen (simpar g) in
  let sigi := linspace sigmin sigmax 100 in
  kickZ0 <- kfactor ImZ k sigs ;;
  kickZi <- mapM (kfactor ImZ k) sigi ;;
  kickW0 <- wfactor wake saxis sigs ;;
  Ret (with_results g (set_kick (results g) kickZi sigi kickW0)).


(* ================================================================== *)
(** ** The vocabulary of the statements *)

(** The trapezoidal rule over the abscissas [xs] and the ordinates [ys]. *)
Fixpoint trapezoid (xs ys : list R) : R :=
  match xs, ys with
  | x0 :: ((x1 :: _) as xs'), y0 :: ((y1 :: _) as ys') =>
      (x1 - x0) * (y1 + y0) / 2 + trapezoid xs' ys'
  | _, _ => 0
  end.

(** The integrand [Z(x) exp(-x^2 a^2)] sampled on [xs]. *)
Definition gauss_weighted (Zs xs : list R) (a : R) : list R :=
  zip_with Rmult Zs (map (fun x => exp (- (x ^ 2 * a ^ 2))) xs).

(** Angular frequency [omega = 2 pi f] and wavenumber [k = omega / c]. *)
Definition omega_of (fr : list R) : list R := map (fun f => 2 * PI * f) fr.

Definition wavenumber_of (fr : list R) : list R :=
  map (fun f => 2 * PI * f / c_light) fr.

(** The factor in the words of the specification: the integral runs over
    the angular frequency. *)
Definition stated_factor (Zs fr : list R) (sig : R) : R :=
  c_light / (2 * PI) * 1e-12 *
  trapezoid (omega_of fr) (gauss_weighted Zs (omega_of fr) sig).

(** The factor with the integral over the wavenumber. *)
Definition wavenumber_factor (Zs fr : list R) (sig : R) : R :=
  c_light / (2 * PI) * 1e-12 *
  trapezoid (wavenumber_of fr) (gauss_weighted Zs (wavenumber_of fr) sig).

(** The two integrations: loss factor (mode 0) and kick factor (mode > 0). *)
Inductive quantity : Set := Loss | Kick.

Definition calc_factor (q : quantity) (g : GlobData) : outcome GlobData :=
  match q with
  | Loss => calc_loss_factor g
  | Kick => calc_kick_factor g
  end.

Definition impedance_in (q : quantity) (r : Results) : list R :=
  match q with
  | Loss => ReZlong r
  | Kick => ImZt r
  end.

Definition factor_curve (q : quantity) (r : Results) : list R :=
  match q with
  | Loss => klossZ r
  | Kick => kickZ r
  end.

(** The six operating points (bunch length [m], current [A]). *)
Definition scenarios : list (R * R) :=
  [ (2.65 * 1e-3, 500 * 1e-3); (5.3 * 1e-3, 500 * 1e-3);
    (2.65 * 1e-3, 10 * 1e-3); (4 * 1e-3, 110 * 1e-3);
    (10 * 1e-3, 110 * 1e-3); (10 * 1e-3, 500 * 1e-3) ].

(** Revolution period [T0 = 2 pi / omega0]. *)
Definition T0_of (g : GlobData) : R := 2 * PI / omega0 (ringpar g).

(** The condition of the second mask of mode 0, as a proposition. *)
Definition zon_kept (f : R) : Prop := 2 * PI * Rabs f < 20e9 /\ f <> 0.

(** The spectrum before the cutoff, [Z = dt * shift * fftt / Jwlist], on the
    reordered frequencies [fr] and transform [fftt]. *)
Definition raw_spectrum (dt s_first sigt : R) (fr : list R) (fftt : list cplx)
  : list cplx :=
  let w := map (fun f => 2 * PI * f) fr in
  zip_with cdivr
    (zip_with cmul
       (map (cscale dt) (map (fun wi => cis (- (wi * s_first / c_light))) w))
       fftt)
    (map (fun wi => exp (- (wi * sigt) ^ 2 / 2)) w).

(** The mask of the cutoff: [abs(w) <= wmax] with [w = 2*pi*freq]. *)
Definition cutoff_mask (wmax : R) (fr : list R) : list bool :=
  map (fun f => leb (Rabs (2 * PI * f)) wmax) fr.


(** The structure a run returned; the initial structure when it did not
    return. *)
Definition after (c : outcome GlobData) : GlobData :=
  match c with
  | Ret g' => g'
  | _ => GlobData_init
  end.



(** The file a source other than GdfidL is read from, with the number of
    header lines skipped: the [wakepath] and [headerL] that [select_paths]
    assigns. *)
Definition single_file (g : GlobData) : option (string * nat) :=
  let dsrc := datasource (simpar g) in
  let wdir := wakepath (simpar g) in
  if startswith dsrc "ACE3P" then Some (path_join [wdir; "wakefield.out"%string], 3%nat)
  else if startswith dsrc "GdfidL" then None
  else if startswith dsrc "CST" then Some (path_join [wdir; "wake.txt"%string], 2%nat)
  else if startswith dsrc "ECHO" then
    if (m (simpar g) =? 0)%Z then Some (path_join [wdir; "wake.dat"%string], 0%nat)
    else if ((0 <? m (simpar g)) && truthy (sym (simpar g)))%Z
    then Some (path_join [wdir; "wakeT.dat"%string], 0%nat)
    else None
  else None.

(** The bins of [fftfreq(n, d)] after the roll by [n//2], in zero-centred
    order: [(t - n//2) / (n d)] for [t < n]. *)
Definition centred_bins (n : nat) (d : R) : list R :=
  map (fun t => IZR (Z.of_nat t - Z.of_nat (n / 2)) * (1 / (INR n * d))) (seq 0 n).

(** The normalised Gaussian line density of a bunch of length [sig]. *)
Definition gauss_density (sig x : R) : R :=
  1 / (sig * sqrt (2 * PI)) * exp (- x ^ 2 / (2 * sig ^ 2)).


(* ================================================================== *)
(** ** Inputs used in the examples *)

(** A two-sample wake whose spectrum has the bins -5 GHz and 0. *)
Definition two_sample_wake : GlobData :=
  let g := prepare_struct_for_load None 0 1e-3 "run" "ECHO" in
  with_results g (set_wake (results g) [0; 0.0299792458] [1; 1]).

(** What [calc_impedance] stores for the two-sample wake: 150 Ohm in the bin
    of frequency 0, nothing at -5 GHz, and empty Z/n arrays. *)
Definition two_sample_impedance : GlobData :=
  with_results two_sample_wake
    (set_long (results two_sample_wake) [-5e9; 0] [0; 150] [0; 0] [] []).





Definition text_line (t : string) : line := {| text := t; numbers := None |}.

Definition data_line (t : string) (a b : R) : line :=
  {| text := t; numbers := Some [a; b] |}.

(** Three samples: positions 0, 1, 2 and amplitudes 3, -4, 5. *)
Definition sample_rows : file :=
  [ data_line "0 3" 0 3; data_line "1 -4" 1 (-4); data_line "2 5" 2 5 ].

Definition probe_rows (a b c : R) : file :=
  [ data_line "0" 0 a; data_line "1" 1 b; data_line "2" 2 c ].

Definition gdfidl_header : file :=
  [ text_line " % linecolor= 0"; text_line " % title= probe";
    text_line (" % subtitle= " ++ dq ++ "W_l (x,y)= ( 0.0, 1.0e-3 ) [m]" ++ dq) ]
  ++ repeat (text_line " % header") 8.

(** A wake directory holding one well-formed file set per code. *)
Definition wake_directory : filesystem :=
  fun path =>
    if (path =? "run/wakefield.out")%string
    then Some (repeat (text_line "header") 3 ++ sample_rows)
    else if (path =? "run/wake.txt")%string
    then Some (repeat (text_line "header") 2 ++ sample_rows)
    else if (path =? "run/wake.dat")%string
    then Some sample_rows
    else if (path =? "run/Results-Wq_AT_XY.0001")%string
    then Some (gdfidl_header ++ sample_rows)
    else if (path =? "run/Results-WY_AT_XY.0001")%string
    then Some (gdfidl_header ++ probe_rows 2 4 6)
    else if (path =? "run/Results-WY_AT_XY.0002")%string
    then Some (gdfidl_header ++ probe_rows 4 8 2)
    else None.

(** The two-sample wake in dipole mode. *)
Definition two_sample_transverse : GlobData :=
  let g := prepare_struct_for_load None 1 1e-3 "run" "ECHO" in
  with_results g (set_wake (results g) [0; 0.0299792458] [1; 1]).

(** The two-sample wake with twice the amplitude. *)
Definition two_sample_doubled : GlobData :=
  let g := prepare_struct_for_load None 0 1e-3 "run" "ECHO" in
  with_results g (set_wake (results g) [0; 0.0299792458] (map (Rmult 2) [1; 1])).

(** The two-sample wake with the cutoff raised from 2 to 3. *)
Definition two_sample_wide : GlobData :=
  let g := two_sample_wake in
  let sp := simpar g in
  {| ringpar := ringpar g;
     simpar := {| wakepath := wakepath sp; targetdir := targetdir sp;
                  datasource := datasource sp; m := m sp; offset := offset sp;
                  sym := sym sp; whichaxis := whichaxis sp; units := units sp;
                  bunlen := bunlen sp; cutoff := 3 |};
     results := results g |}.


(** A wake directory with a CST file that ends in a line of text, an ECHO
    file of a single row, and no ACE3P file. *)
Definition damaged_directory : filesystem :=
  fun path =>
    if (path =? "run/wake.txt")%string
    then Some (repeat (text_line "header") 2 ++ sample_rows ++ [text_line "end"])
    else if (path =? "run/wake.dat")%string
    then Some [data_line "0 3" 0 3]
    else None.

(* ================================================================== *)
(** ** Outcomes, comparisons and arrays: basic facts *)

Lemma bind_Ret_inv {A B : Type} (c : outcome A) (k : A -> outcome B) (b : B) :
  bind c k = Ret b -> exists a, c = Ret a /\ k a = Ret b.
Proof. destruct c; simpl; intros H; try discriminate. eauto. Qed.

Ltac inv_bind H :=
  let a := fresh "v" in
  let Ha := fresh "E" in
  apply bind_Ret_inv in H; destruct H as (a & Ha & H).

Ltac inv_bind_as H a Ha :=
  apply bind_Ret_inv in H; destruct H as (a & Ha & H).

Lemma bind_not_Ret {A B : Type} (c : outcome A) (k : A -> outcome B) :
  (forall a b, k a <> Ret b) -> forall b, bind c k <> Ret b.
Proof. intros Hk b. destruct c; simpl; [apply Hk|discriminate|discriminate]. Qed.

Lemma after_returns (c : outcome GlobData) :
  (exists g', c = Ret g') -> c = Ret (after c).
Proof. intros [g' ->]. reflexivity. Qed.

Lemma mapM_pointwise {A B : Type} (f : A -> outcome B) (g : A -> B) (l : list A) :
  (forall x, f x = Ret (g x)) -> mapM f l = Ret (map g l).
Proof.
  intros H. induction l as [|x l IH]; simpl; auto.
  now rewrite H, IH.
Qed.


Lemma length_zip_with {A B C : Type} (f : A -> B -> C) (a : list A) (b : list B) :
  length (zip_with f a b) = Nat.min (length a) (length b).
Proof.
  revert b; induction a as [|x a IH]; intros [|y b]; simpl; auto.
Qed.

Lemma length_removelast {A : Type} (l : list A) : length (removelast l) = (length l - 1)%nat.
Proof.
  induction l as [|x [|y l] IH]; simpl in *; auto. rewrite IH. lia.
Qed.

Lemma length_tl {A : Type} (l : list A) : length (tl l) = (length l - 1)%nat.
Proof. destruct l; simpl; lia. Qed.

Lemma nth_map_0 (f : R -> R) (l : list R) (i : nat) :
  (i < length l)%nat -> nth i (map f l) 0 = f (nth i l 0).
Proof.
  intros Hi. rewrite (nth_indep _ 0 (f 0)) by (now rewrite length_map).
  apply map_nth.
Qed.


Lemma leb_le (x y : R) : leb x y = true <-> x <= y.
Proof. unfold leb. destruct (Rle_dec x y); split; intros; auto; discriminate. Qed.

Lemma leb_true (x y : R) : x <= y -> leb x y = true.
Proof. apply leb_le. Qed.

Lemma ltb_lt (x y : R) : ltb x y = true <-> x < y.
Proof. unfold ltb. destruct (Rlt_dec x y); split; intros; auto; discriminate. Qed.

Lemma ltb_nlt (x y : R) : ltb x y = false <-> ~ x < y.
Proof. unfold ltb. destruct (Rlt_dec x y); split; intros; auto; try discriminate. contradiction. Qed.

Lemma ltb_false (x y : R) : y <= x -> ltb x y = false.
Proof. intros H. apply ltb_nlt. lra. Qed.

Lemma eqb_eq (x y : R) : eqb x y = true <-> x = y.
Proof. unfold eqb. destruct (Req_dec_T x y); split; intros; auto; discriminate. Qed.

Lemma eqb_neq (x y : R) : eqb x y = false <-> x <> y.
Proof. unfold eqb. destruct (Req_dec_T x y); split; intros; auto; try discriminate. contradiction. Qed.

Lemma scalar_div_Ret (a b : R) : b <> 0 -> scalar_div a b = Ret (a / b).
Proof. intros H. unfold scalar_div. destruct (Req_dec_T b 0); [contradiction|reflexivity]. Qed.

Lemma scalar_div_inv (a b v : R) : scalar_div a b = Ret v -> b <> 0 /\ v = a / b.
Proof. unfold scalar_div. destruct (Req_dec_T b 0); intros H; inversion H; auto. Qed.

Lemma truediv_Ret (a b : R) : b <> 0 -> truediv a b = Ret (a / b).
Proof. intros H. unfold truediv. destruct (Req_dec_T b 0); [contradiction|reflexivity]. Qed.

Lemma truediv_inv (a b v : R) : truediv a b = Ret v -> b <> 0 /\ v = a / b.
Proof. unfold truediv. destruct (Req_dec_T b 0); intros H; inversion H; auto. Qed.

Lemma array_div_scalar_Ret (a : list R) (b : R) :
  b <> 0 -> array_div_scalar a b = Ret (map (fun x => x / b) a).
Proof.
  intros Hb. unfold array_div_scalar. destruct a; [reflexivity|].
  destruct (Req_dec_T b 0); [contradiction|reflexivity].
Qed.

Lemma array_div_scalar_inv (a : list R) (b : R) (v : list R) :
  array_div_scalar a b = Ret v -> v = map (fun x => x / b) a /\ (a <> [] -> b <> 0).
Proof.
  unfold array_div_scalar. destruct a as [|x a].
  - intros H. inversion H. split; [reflexivity|congruence].
  - destruct (Req_dec_T b 0); intros H; inversion H. split; auto.
Qed.

Lemma array_div_inv (a b v : list R) :
  array_div a b = Ret v -> v = zip_with Rdiv a b.
Proof. unfold array_div. destruct (existsb _ b); intros H; inversion H; auto. Qed.

Lemma getitem_first {A : Type} (l : list A) (d : A) :
  l <> [] -> getitem l 0 = Ret (nth 0 l d).
Proof. destruct l as [|x l]; [congruence|]. intros _. reflexivity. Qed.

Lemma getitem_last {A : Type} (l : list A) (d : A) :
  l <> [] -> getitem l (-1) = Ret (nth (length l - 1) l d).
Proof.
  intros Hl. unfold getitem. change (-1 <? 0)%Z with true. cbv iota.
  assert (0 < length l)%nat by (destruct l; [congruence|simpl; lia]).
  replace ((0 <=? Z.of_nat (length l) + -1) && (Z.of_nat (length l) + -1 <? Z.of_nat (length l)))%Z
    with true.
  2:{ symmetry. apply andb_true_iff. split; [apply Z.leb_le|apply Z.ltb_lt]; lia. }
  replace (Z.to_nat (Z.of_nat (length l) + -1)) with (length l - 1)%nat by lia.
  rewrite (nth_error_nth' l d) by lia. reflexivity.
Qed.

Lemma getitem_empty {A : Type} (i : Z) : getitem (@nil A) i = Raise IndexError.
Proof.
  unfold getitem. cbn [length Z.of_nat]. destruct (i <? 0)%Z eqn:E.
  - assert (H : (0 <=? 0 + i)%Z = false) by (apply Z.leb_gt; apply Z.ltb_lt in E; lia).
    now rewrite H.
  - assert (H : (i <? 0)%Z = false) by exact E.
    now rewrite H, andb_false_r.
Qed.

Lemma INR_minus_1 (n : nat) : n <> 1%nat -> INR n - 1 <> 0.
Proof.
  intros Hn H. apply Hn. apply INR_eq. simpl. lra.
Qed.

Lemma select_map {A B : Type} (f : A -> B) (mask : list bool) (a : list A) :
  select mask (map f a) = map f (select mask a).
Proof.
  revert a; induction mask as [|b mask IH]; intros [|x a]; simpl; auto.
  destruct b; simpl; now rewrite IH.
Qed.

Lemma length_select_same {A B : Type} (mask : list bool) (a : list A) (b : list B) :
  length a = length b -> length (select mask a) = length (select mask b).
Proof.
  revert a b; induction mask as [|c mask IH]; intros [|x a] [|y b] H; simpl in *;
    try discriminate; auto.
  destruct c; simpl; auto.
Qed.

Lemma In_select_test {A : Type} (p : A -> bool) (a : list A) (x : A) :
  In x (select (map p a) a) <-> In x a /\ p x = true.
Proof.
  induction a as [|y a IH]; simpl.
  - tauto.
  - destruct (p y) eqn:Epy; simpl; rewrite IH; split.
    + intros [->|[H1 H2]]; auto.
    + intros [[->|H1] H2]; auto.
    + intros [H1 H2]; auto.
    + intros [[->|H1] H2]; auto. congruence.
Qed.

Lemma length_fft (x : list R) (y : list cplx) : fft x = Ret y -> length y = length x.
Proof.
  unfold fft. destruct x as [|x0 x]; intros H; [discriminate|].
  remember (x0 :: x) as l. inversion H. now rewrite length_map, length_seq.
Qed.

Lemma fft_returns (x : list R) : x <> [] -> exists y, fft x = Ret y.
Proof. destruct x; [congruence|]. intros _. unfold fft. eauto. Qed.

Lemma half_sum (n : nat) : (S (n / 2) + S n / 2 = S n)%nat.
Proof.
  pose proof (Nat.div_mod_eq n 2). pose proof (Nat.div_mod_eq (S n) 2).
  pose proof (Nat.mod_upper_bound n 2 ltac:(lia)).
  pose proof (Nat.mod_upper_bound (S n) 2 ltac:(lia)).
  assert (n mod 2 = 0 \/ n mod 2 = 1)%nat as [E|E] by lia.
  - assert ((S n) mod 2 = 1)%nat.
    { replace (S n) with (1 + (n / 2) * 2)%nat by lia.
      rewrite Nat.Div0.mod_add. reflexivity. }
    lia.
  - assert ((S n) mod 2 = 0)%nat.
    { replace (S n) with (0 + (S (n / 2)) * 2)%nat by lia.
      rewrite Nat.Div0.mod_add. reflexivity. }
    lia.
Qed.

Lemma length_fftfreq (n : nat) (d : R) (y : list R) :
  fftfreq n d = Ret y -> length y = n.
Proof.
  unfold fftfreq. intros H. inv_bind H. inversion H.
  rewrite length_map, length_app, !length_map, !length_seq.
  destruct n as [|n]; [reflexivity|]. apply half_sum.
Qed.

Lemma length_roll {A : Type} (a : list A) (k : nat) : length (roll a k) = length a.
Proof.
  unfold roll. destruct (length a) eqn:E; [exact E|].
  rewrite length_app, length_skipn, length_firstn.
  pose proof (Nat.mod_upper_bound k (S n) ltac:(lia)). lia.
Qed.

(* ================================================================== *)
(** ** The window *)

Lemma length_hanning (M : nat) : length (hanning M) = M.
Proof.
  destruct M as [|[|M]]; simpl; auto.
  now rewrite length_map, length_seq.
Qed.

Lemma nth_hanning (M n : nat) :
  (2 <= M)%nat -> (n < M)%nat ->
  nth n (hanning M) 0 = 0.5 - 0.5 * cos (2 * PI * INR n / INR (M - 1)).
Proof.
  intros HM Hn. destruct M as [|[|M]]; try lia.
  unfold hanning.
  set (f := fun n0 : nat => _).
  rewrite (nth_indep _ 0 (f 0%nat)) by (now rewrite length_map, length_seq).
  rewrite map_nth, seq_nth by lia. reflexivity.
Qed.

Lemma length_window (N : nat) : length (window N) = N.
Proof.
  unfold window, slice. rewrite length_hanning.
  destruct N as [|N].
  - reflexivity.
  - unfold clamp.
    replace (Z.of_nat (S N) - 1 <? 0)%Z with false by (symmetry; apply Z.ltb_ge; lia).
    replace (-1 <? 0)%Z with true by reflexivity.
    rewrite length_firstn, length_skipn, length_hanning. lia.
Qed.

Lemma nth_window (N i : nat) :
  (i < N)%nat -> nth i (window N) 0 = nth (N - 1 + i) (hanning (2 * N)) 0.
Proof.
  intros Hi. unfold window, slice. rewrite length_hanning. unfold clamp.
  replace (Z.of_nat N - 1 <? 0)%Z with false by (symmetry; apply Z.ltb_ge; lia).
  replace (-1 <? 0)%Z with true by reflexivity.
  rewrite nth_firstn.
  replace (i <? _)%nat with true by (symmetry; apply Nat.ltb_lt; lia).
  rewrite nth_skipn. f_equal. lia.
Qed.

Lemma hann_angle_bounds (N j : nat) :
  (1 <= N)%nat -> (N <= j)%nat -> (j <= 2 * N - 1)%nat ->
  PI <= 2 * PI * INR j / INR (2 * N - 1) <= 2 * PI.
Proof.
  intros HN Hlo Hhi.
  assert (HD : 0 < INR (2 * N - 1)) by (apply lt_0_INR; lia).
  assert (Hj1 : INR (2 * N - 1) <= 2 * INR j).
  { replace 2 with (INR 2) by reflexivity. rewrite <- mult_INR. apply le_INR. lia. }
  assert (Hj2 : INR j <= INR (2 * N - 1)) by (apply le_INR; lia).
  pose proof PI_RGT_0 as Hpi.
  split.
  - apply Rmult_le_reg_r with (INR (2 * N - 1)); [exact HD|].
    unfold Rdiv. rewrite Rmult_assoc, Rinv_l by lra. nra.
  - apply Rmult_le_reg_r with (INR (2 * N - 1)); [exact HD|].
    unfold Rdiv. rewrite Rmult_assoc, Rinv_l by lra. nra.
Qed.

Lemma hann_low_angle_bounds (N j : nat) :
  (1 <= N)%nat -> (j <= N - 1)%nat ->
  0 <= 2 * PI * INR j / INR (2 * N - 1) <= PI.
Proof.
  intros HN Hj.
  assert (HD : 0 < INR (2 * N - 1)) by (apply lt_0_INR; lia).
  assert (Hj0 : 0 <= INR j) by apply pos_INR.
  assert (Hj1 : 2 * INR j <= INR (2 * N - 1)).
  { replace 2 with (INR 2) by reflexivity. rewrite <- mult_INR. apply le_INR. lia. }
  pose proof PI_RGT_0 as Hpi.
  split.
  - apply Rmult_le_reg_r with (INR (2 * N - 1)); [exact HD|].
    unfold Rdiv. rewrite Rmult_assoc, Rinv_l by lra. nra.
  - apply Rmult_le_reg_r with (INR (2 * N - 1)); [exact HD|].
    unfold Rdiv. rewrite Rmult_assoc, Rinv_l by lra. nra.
Qed.

Lemma hann_angle_lt (D j k : nat) :
  (0 < D)%nat -> (j < k)%nat ->
  2 * PI * INR j / INR D < 2 * PI * INR k / INR D.
Proof.
  intros HD Hjk.
  assert (0 < INR D) by (apply lt_0_INR; lia).
  assert (INR j < INR k) by (apply lt_INR; lia).
  pose proof PI_RGT_0.
  unfold Rdiv. apply Rmult_lt_compat_r; [now apply Rinv_0_lt_compat | nra].
Qed.

Lemma hann_angle_le (D j k : nat) :
  (0 < D)%nat -> (j <= k)%nat ->
  2 * PI * INR j / INR D <= 2 * PI * INR k / INR D.
Proof.
  intros HD Hjk.
  destruct (Nat.eq_dec j k) as [->|Hne]; [lra|].
  left. apply hann_angle_lt; lia.
Qed.

Lemma hann_peak_pair (N : nat) :
  (1 <= N)%nat ->
  cos (2 * PI * INR N / INR (2 * N - 1)) = cos (2 * PI * INR (N - 1) / INR (2 * N - 1)).
Proof.
  intros HN.
  assert (HD : 0 < INR (2 * N - 1)) by (apply lt_0_INR; lia).
  replace (2 * PI * INR N / INR (2 * N - 1))
    with (- (2 * PI * INR (N - 1) / INR (2 * N - 1)) + 2 * INR 1 * PI).
  - rewrite cos_period. apply cos_neg.
  - rewrite minus_INR by lia. rewrite minus_INR by lia. rewrite mult_INR.
    simpl INR. field.
    rewrite minus_INR, mult_INR in HD by lia. simpl INR in HD. lra.
Qed.

Lemma window_step (N i : nat) :
  (S i < N)%nat -> nth (S i) (window N) 0 <= nth i (window N) 0.
Proof.
  intros Hi.
  rewrite !nth_window by lia.
  rewrite !nth_hanning by lia.
  destruct i as [|i].
  - replace (N - 1 + 1)%nat with N by lia.
    replace (N - 1 + 0)%nat with (N - 1)%nat by lia.
    rewrite hann_peak_pair by lia. lra.
  - assert (cos (2 * PI * INR (N - 1 + S i) / INR (2 * N - 1))
            < cos (2 * PI * INR (N - 1 + S (S i)) / INR (2 * N - 1))).
    { apply cos_increasing_1.
      - apply hann_angle_bounds; lia.
      - apply hann_angle_bounds; lia.
      - apply hann_angle_bounds; lia.
      - apply hann_angle_bounds; lia.
      - apply hann_angle_lt; lia. }
    lra.
Qed.

Lemma window_step_strict (N i : nat) :
  (1 <= i)%nat -> (S i < N)%nat -> nth (S i) (window N) 0 < nth i (window N) 0.
Proof.
  intros H1 Hi.
  rewrite !nth_window by lia.
  rewrite !nth_hanning by lia.
  assert (cos (2 * PI * INR (N - 1 + i) / INR (2 * N - 1))
          < cos (2 * PI * INR (N - 1 + S i) / INR (2 * N - 1))).
  { apply cos_increasing_1; try (apply hann_angle_bounds; lia).
    apply hann_angle_lt; lia. }
  lra.
Qed.

Lemma window_first_is_peak (N j : nat) :
  (1 <= N)%nat -> (j < 2 * N)%nat ->
  nth j (hanning (2 * N)) 0 <= nth 0 (window N) 0.
Proof.
  intros HN Hj.
  rewrite nth_window by lia. rewrite !nth_hanning by lia.
  replace (N - 1 + 0)%nat with (N - 1)%nat by lia.
  assert (cos (2 * PI * INR (N - 1) / INR (2 * N - 1))
          <= cos (2 * PI * INR j / INR (2 * N - 1))); [|lra].
  destruct (le_lt_dec j (N - 1)) as [Hlo|Hhi].
  - apply cos_decr_1; try (apply hann_low_angle_bounds; lia).
    apply hann_angle_le; lia.
  - rewrite <- (hann_peak_pair N) by lia.
    apply cos_incr_1; try (apply hann_angle_bounds; lia).
    apply hann_angle_le; lia.
Qed.

(** C1, as the code has it.  For a wake of [N >= 2] samples the window
    multiplied into the wake is the slice [N-1 .. 2N-2] of the Hanning window
    of length [2N], that is its decreasing half: it has [N] values, they are
    non-increasing from the first sample to the last (the first two are the
    two equal peak samples), and the first one is the largest value of the
    whole Hanning window, so the onset of the wake gets the largest weight and
    the tail is tapered. *)
Theorem window_is_decreasing_half (N : nat) (HN : (2 <= N)%nat) :
  length (window N) = N /\
  (forall i, (i < N)%nat ->
     nth i (window N) 0 = nth (N - 1 + i) (hanning (2 * N)) 0) /\
  (forall i, (S i < N)%nat -> nth (S i) (window N) 0 <= nth i (window N) 0) /\
  (forall j, (j < 2 * N)%nat -> nth j (hanning (2 * N)) 0 <= nth 0 (window N) 0).
Proof.
  split; [apply length_window|].
  split; [intros; now apply nth_window|].
  split; [intros; now apply window_step|].
  intros; apply window_first_is_peak; lia.
Qed.

Lemma window_is_decreasing_half_witness :
  length (window 3) = 3%nat /\
  (forall i, (i < 3)%nat ->
     nth i (window 3) 0 = nth (3 - 1 + i) (hanning (2 * 3)) 0) /\
  (forall i, (S i < 3)%nat -> nth (S i) (window 3) 0 <= nth i (window 3) 0) /\
  (forall j, (j < 2 * 3)%nat -> nth j (hanning (2 * 3)) 0 <= nth 0 (window 3) 0).
Proof. apply (window_is_decreasing_half 3). lia. Defined.

(** The claim as stated fails for three samples: the window is
    [0.905; 0.905; 0.345] and its last value is below the one before. *)
Lemma window_not_increasing :
  ~ (forall i, (S i < 3)%nat -> nth i (window 3) 0 <= nth (S i) (window 3) 0).
Proof.
  intros H. specialize (H 1%nat ltac:(lia)).
  pose proof (window_step_strict 3 1 ltac:(lia) ltac:(lia)). lra.
Qed.

(* ================================================================== *)
(** ** linspace *)

Lemma linspace_shape (a b : R) (n : nat) :
  linspace a b (S (S n)) =
  map (fun i => a + INR i * ((b - a) / INR (S n))) (seq 0 (S n)) ++ [b].
Proof.
  unfold linspace.
  replace (S (S n) - 1)%nat with (S n) by lia.
  change (0 <? S n)%nat with true. cbv iota.
  f_equal.
  assert (HD : INR (S n) <> 0) by (apply not_0_INR; lia).
  rewrite (seq_S (S n) 0), !map_app. simpl (0 + S n)%nat.
  unfold eqb. destruct (Req_dec_T ((b - a) / INR (S n)) 0) as [Hz|Hz].
  - rewrite !map_app. cbn [map].
    rewrite removelast_last. rewrite !map_map.
    apply map_ext. intros i. rewrite Hz.
    assert (b - a = 0).
    { apply Rmult_eq_reg_r with (/ INR (S n)); [|now apply Rinv_neq_0_compat].
      unfold Rdiv in Hz. lra. }
    rewrite H. lra.
  - rewrite !map_app. cbn [map].
    rewrite removelast_last. rewrite !map_map.
    apply map_ext. intros i. lra.
Qed.

Lemma length_linspace (a b : R) (n : nat) : length (linspace a b (S (S n))) = S (S n).
Proof. rewrite linspace_shape, length_app, length_map, length_seq. simpl. lia. Qed.


Lemma nth_linspace_inner (a b : R) (n i : nat) :
  (i <= n)%nat ->
  nth i (linspace a b (S (S n))) 0 = a + INR i * ((b - a) / INR (S n)).
Proof.
  intros Hi. rewrite linspace_shape.
  rewrite app_nth1 by (rewrite length_map, length_seq; lia).
  set (f := fun i0 : nat => _).
  rewrite (nth_indep _ 0 (f 0%nat)) by (rewrite length_map, length_seq; lia).
  rewrite map_nth, seq_nth by lia. reflexivity.
Qed.

Lemma nth_linspace_last (a b : R) (n : nat) :
  nth (S n) (linspace a b (S (S n))) 0 = b.
Proof.
  rewrite linspace_shape.
  rewrite app_nth2; rewrite length_map, length_seq; [|lia].
  replace (S n - S n)%nat with 0%nat by lia. reflexivity.
Qed.


(* ================================================================== *)
(** ** The trapezoidal rule and the frequency-domain factor *)

Lemma trapz_pairs (x y : list R) :
  Np.sum (map (fun v => v / 2)
            (zip_with Rmult (diff x) (zip_with Rplus (tl y) (removelast y))))
  = trapezoid x y.
Proof.
  revert y. induction x as [|x0 x IH]; intros y.
  - reflexivity.
  - destruct x as [|x1 x].
    + destruct y as [|y0 [|y1 y]]; reflexivity.
    + destruct y as [|y0 [|y1 y]]; try reflexivity.
      specialize (IH (y1 :: y)).
      change (trapezoid (x0 :: x1 :: x) (y0 :: y1 :: y))
        with ((x1 - x0) * (y1 + y0) / 2 + trapezoid (x1 :: x) (y1 :: y)).
      rewrite <- IH.
      unfold diff.
      change (tl (x0 :: x1 :: x)) with (x1 :: x).
      change (tl (y0 :: y1 :: y)) with (y1 :: y).
      change (removelast (x0 :: x1 :: x)) with (x0 :: removelast (x1 :: x)).
      change (removelast (y0 :: y1 :: y)) with (y0 :: removelast (y1 :: y)).
      destruct x as [|x2 x]; destruct y as [|y2 y]; simpl; unfold Rdiv; try lra.
Qed.

Lemma trapz_eq (y x : list R) :
  length y = length x -> trapz y x = Ret (trapezoid x y).
Proof.
  intros Hlen. unfold trapz, broadcast.
  assert (Hl : length (diff x) = length (zip_with Rplus (tl y) (removelast y))).
  { unfold diff. rewrite !length_zip_with, !length_tl, !length_removelast. lia. }
  rewrite Hl, Nat.eqb_refl. simpl. now rewrite trapz_pairs.
Qed.

Lemma kfactor_eq (Zs fr : list R) (sig : R) :
  length Zs = length fr ->
  kfactor Zs (map (fun f => f * 2 * PI / c_light) fr) sig
  = Ret (wavenumber_factor Zs fr sig).
Proof.
  intros Hlen. unfold kfactor, broadcast.
  rewrite !length_map, Hlen, Nat.eqb_refl. cbn [bind].
  rewrite trapz_eq by (rewrite length_zip_with, !length_map; lia).
  cbn [bind]. f_equal. unfold wavenumber_factor, gauss_weighted, wavenumber_of.
  rewrite !map_map.
  replace (map (fun x => exp (- (x * 2 * PI / c_light) ^ 2 * sig ^ 2)) fr)
    with (map (fun x => exp (- ((2 * PI * x / c_light) ^ 2 * sig ^ 2))) fr).
  2:{ apply map_ext. intros a. f_equal. unfold Rdiv. ring. }
  replace (map (fun f => f * 2 * PI / c_light) fr)
    with (map (fun f => 2 * PI * f / c_light) fr).
  2:{ apply map_ext. intros a. unfold Rdiv. ring. }
  unfold Rdiv. ring.
Qed.

Lemma mapM_kfactor (Zs fr l : list R) :
  length Zs = length fr ->
  mapM (kfactor Zs (map (fun f => f * 2 * PI / c_light) fr)) l
  = Ret (map (wavenumber_factor Zs fr) l).
Proof. intros H. apply mapM_pointwise. intros x. now apply kfactor_eq. Qed.


Lemma trapezoid_scale (c : R) (xs ys : list R) :
  trapezoid (map (fun x => x / c) xs) ys = trapezoid xs ys / c.
Proof.
  revert ys. induction xs as [|x0 xs IH]; intros ys.
  - simpl. unfold Rdiv. ring.
  - destruct xs as [|x1 xs].
    + destruct ys as [|y0 [|y1 ys]]; simpl; unfold Rdiv; ring.
    + destruct ys as [|y0 [|y1 ys]]; try (simpl; unfold Rdiv; ring).
      specialize (IH (y1 :: ys)).
      change (map (fun x => x / c) (x0 :: x1 :: xs))
        with (x0 / c :: map (fun x => x / c) (x1 :: xs)).
      change (map (fun x => x / c) (x1 :: xs))
        with (x1 / c :: map (fun x => x / c) xs) at 1.
      change (trapezoid (x0 / c :: x1 / c :: map (fun x => x / c) xs) (y0 :: y1 :: ys))
        with ((x1 / c - x0 / c) * (y1 + y0) / 2
              + trapezoid (map (fun x => x / c) (x1 :: xs)) (y1 :: ys)).
      rewrite IH.
      change (trapezoid (x0 :: x1 :: xs) (y0 :: y1 :: ys))
        with ((x1 - x0) * (y1 + y0) / 2 + trapezoid (x1 :: xs) (y1 :: ys)).
      unfold Rdiv. ring.
Qed.

Lemma wavenumber_factor_omega (Zs fr : list R) (sig : R) :
  wavenumber_factor Zs fr sig =
  / (2 * PI) * 1e-12 *
  trapezoid (omega_of fr) (gauss_weighted Zs (omega_of fr) (sig / c_light)).
Proof.
  unfold wavenumber_factor.
  assert (Hc : c_light <> 0) by (unfold c_light; lra).
  assert (Hk : wavenumber_of fr = map (fun x => x / c_light) (omega_of fr)).
  { unfold wavenumber_of, omega_of. rewrite map_map. reflexivity. }
  assert (Hg : gauss_weighted Zs (wavenumber_of fr) sig
               = gauss_weighted Zs (omega_of fr) (sig / c_light)).
  { unfold gauss_weighted. f_equal. rewrite Hk, map_map. apply map_ext.
    intros a. f_equal. field. exact Hc. }
  rewrite Hg, Hk, trapezoid_scale.
  pose proof PI_RGT_0. field. split; lra.
Qed.

(* ================================================================== *)
(** ** calc_impedance, statement by statement *)

Lemma windowed_nonempty (wake : list R) :
  wake <> [] -> zip_with Rmult wake (window (length wake)) <> [].
Proof.
  intros Hw Hz. apply (f_equal (@length R)) in Hz.
  rewrite length_zip_with, length_window in Hz.
  destruct wake; [congruence|]. simpl in Hz. lia.
Qed.

Lemma zon_quotients_nonzero (fr : list R) (f0 : R) :
  f0 <> 0 ->
  existsb (fun y => eqb y 0) (map (fun x => x / f0) (select (zon_mask fr) fr)) = false.
Proof.
  intros Hf0.
  destruct (existsb _ _) eqn:E; [|reflexivity].
  apply existsb_exists in E. destruct E as (y & Hy & Hz).
  apply in_map_iff in Hy. destruct Hy as (f & <- & Hf).
  unfold zon_mask in Hf. apply In_select_test in Hf. destruct Hf as [_ Hf].
  apply andb_true_iff in Hf. destruct Hf as [_ Hne].
  apply negb_true_iff, eqb_neq in Hne.
  apply eqb_eq in Hz. exfalso.
  apply Hne. apply Rmult_eq_reg_r with (/ f0); [|now apply Rinv_neq_0_compat].
  unfold Rdiv in Hz. lra.
Qed.

Lemma calc_impedance_steps (g g' : GlobData) :
  calc_impedance g = Ret g' ->
  exists (s_first s_last dt0 : R) (fftt : list cplx) (fr0 : list R) (wmax : R),
    getitem (s (results g)) (-1) = Ret s_last /\
    getitem (s (results g)) 0 = Ret s_first /\
    scalar_div (s_last - s_first) (INR (length (s (results g))) - 1) = Ret dt0 /\
    fft (zip_with Rmult (map (fun x => x * 1e12) (W (results g)))
           (window (length (W (results g))))) = Ret fftt /\
    fftfreq (length (W (results g))) (dt0 / c_light) = Ret fr0 /\
    truediv (cutoff (simpar g)) (bunlen (simpar g) / c_light) = Ret wmax /\
    let fr := roll fr0 (length (W (results g)) / 2) in
    let Z := raw_spectrum (dt0 / c_light) s_first (bunlen (simpar g) / c_light)
               fr (roll fftt (length (W (results g)) / 2)) in
    let indcs := cutoff_mask wmax fr in
    let fr' := select indcs fr in
    let imz := map (fun z => - snd z) (select indcs Z) in
    length Z = length fr /\
    ((m (simpar g) = 0%Z /\
      exists nax zon,
        array_div_scalar (select (zon_mask fr') fr')
          (omega0 (ringpar g) / (2 * PI)) = Ret nax /\
        array_div (select (zon_mask fr') imz) nax = Ret zon /\
        g' = with_results g
               (set_long (results g) fr' (map fst (select indcs Z)) imz nax zon))
     \/ ((0 < m (simpar g))%Z /\
         g' = with_results g
                (set_trans (results g) fr' (map snd (select indcs Z))
                   (map fst (select indcs Z))))
     \/ ((m (simpar g) < 0)%Z /\ g' = g)).
Proof.
  unfold calc_impedance. intros H.
  inv_bind H. rename v into s_last, E into Elast.
  inv_bind H. rename v into s_first, E into Efirst.
  inv_bind H. rename v into dt0, E into Edt.
  inv_bind H. rename v into fftt, E into Efft.
  inv_bind H. rename v into fr0, E into Efr.
  inv_bind H. rename v into wmax, E into Ewmax.
  rewrite length_map in *.
  set (N := length (W (results g))) in *.
  set (fr := roll fr0 (N / 2)) in *.
  change (zip_with cdivr _ _)
    with (raw_spectrum (dt0 / c_light) s_first (bunlen (simpar g) / c_light)
            fr (roll fftt (N / 2))) in H.
  set (Z := raw_spectrum _ _ _ _ _) in *.
  assert (Hmask : map (fun wi => leb (Rabs wi) wmax) (map (fun f => 2 * PI * f) fr)
                  = cutoff_mask wmax fr).
  { unfold cutoff_mask. now rewrite map_map. }
  rewrite Hmask in H.
  assert (HlenZ : length Z = length fr).
  { unfold Z, raw_spectrum. rewrite !length_zip_with, !length_map, length_roll.
    unfold fr. rewrite length_roll.
    apply length_fft in Efft. apply length_fftfreq in Efr.
    rewrite Efft, Efr, length_zip_with, length_map.
    fold N. rewrite length_window. lia. }
  exists s_first, s_last, dt0, fftt, fr0, wmax.
  repeat (split; [assumption|]).
  fold fr. fold Z.
  destruct (m (simpar g) =? 0)%Z eqn:Em0.
  - left. apply Z.eqb_eq in Em0. split; [exact Em0|].
    inv_bind H. rename v into nax, E into Enax.
    inv_bind H. rename v into zon, E into Ezon.
    exists nax, zon. repeat split; try assumption. now inversion H.
  - apply Z.eqb_neq in Em0.
    destruct (0 <? m (simpar g))%Z eqn:Epos.
    + right; left. apply Z.ltb_lt in Epos. split; [exact Epos|]. now inversion H.
    + right; right. apply Z.ltb_ge in Epos. split; [lia|]. now inversion H.
Qed.

Lemma calc_impedance_inv (g g' : GlobData) :
  calc_impedance g = Ret g' ->
  exists (s_first s_last dt0 : R) (fr0 : list R) (Z : list cplx) (wmax : R),
    getitem (s (results g)) (-1) = Ret s_last /\
    getitem (s (results g)) 0 = Ret s_first /\
    scalar_div (s_last - s_first) (INR (length (s (results g))) - 1) = Ret dt0 /\
    fftfreq (length (W (results g))) (dt0 / c_light) = Ret fr0 /\
    truediv (cutoff (simpar g)) (bunlen (simpar g) / c_light) = Ret wmax /\
    let fr := roll fr0 (length (W (results g)) / 2) in
    let indcs := cutoff_mask wmax fr in
    let fr' := select indcs fr in
    let imz := map (fun z => - snd z) (select indcs Z) in
    length Z = length fr /\
    ((m (simpar g) = 0%Z /\
      exists nax zon,
        array_div_scalar (select (zon_mask fr') fr')
          (omega0 (ringpar g) / (2 * PI)) = Ret nax /\
        array_div (select (zon_mask fr') imz) nax = Ret zon /\
        g' = with_results g
               (set_long (results g) fr' (map fst (select indcs Z)) imz nax zon))
     \/ ((0 < m (simpar g))%Z /\
         g' = with_results g
                (set_trans (results g) fr' (map snd (select indcs Z))
                   (map fst (select indcs Z))))
     \/ ((m (simpar g) < 0)%Z /\ g' = g)).
Proof.
  intros H. apply calc_impedance_steps in H.
  destruct H as (s_first & s_last & dt0 & fftt & fr0 & wmax
                 & El & Ef & Ed & _ & Efr & Ew & H).
  exists s_first, s_last, dt0, fr0,
    (raw_spectrum (dt0 / c_light) s_first (bunlen (simpar g) / c_light)
       (roll fr0 (length (W (results g)) / 2))
       (roll fftt (length (W (results g)) / 2))), wmax.
  repeat (split; [assumption|]). exact H.
Qed.

Lemma calc_impedance_returns (g : GlobData) :
  s (results g) <> [] -> length (s (results g)) <> 1%nat ->
  nth (length (s (results g)) - 1) (s (results g)) 0 <> nth 0 (s (results g)) 0 ->
  W (results g) <> [] -> bunlen (simpar g) <> 0 -> omega0 (ringpar g) <> 0 ->
  exists g', calc_impedance g = Ret g'.
Proof.
  intros Hs Hlen Hends Hw Hb Hom.
  unfold calc_impedance.
  rewrite (getitem_last _ 0 Hs), (getitem_first _ 0 Hs). cbn [bind].
  rewrite scalar_div_Ret by (now apply INR_minus_1). cbn [bind].
  rewrite length_map.
  assert (Hwake : map (fun x => x * 1e12) (W (results g)) <> []).
  { destruct (W (results g)); [congruence|discriminate]. }
  destruct (fft_returns _ (windowed_nonempty _ Hwake)) as [fftt Efft].
  rewrite length_map in Efft. rewrite Efft. cbn [bind].
  set (dt := _ / c_light).
  assert (Hdt : dt <> 0).
  { unfold dt, c_light. intros H0.
    pose proof (INR_minus_1 _ Hlen) as Hn.
    apply Rmult_integral in H0. destruct H0 as [H0|H0].
    - apply Rmult_integral in H0. destruct H0 as [H0|H0]; [lra|].
      revert H0. now apply Rinv_neq_0_compat.
    - revert H0. apply Rinv_neq_0_compat. lra. }
  unfold fftfreq.
  rewrite scalar_div_Ret.
  2:{ intros H0. apply Rmult_integral in H0. destruct H0 as [H0|H0]; [|contradiction].
      destruct (W (results g)); [congruence|].
      revert H0. apply not_0_INR. discriminate. }
  cbn [bind].
  rewrite truediv_Ret.
  2:{ unfold c_light. intros H0. apply Rmult_integral in H0.
      destruct H0 as [H0|H0]; [contradiction|].
      revert H0. apply Rinv_neq_0_compat. lra. }
  cbn [bind].
  destruct (m (simpar g) =? 0)%Z.
  - assert (Hf0 : omega0 (ringpar g) / (2 * PI) <> 0).
    { pose proof PI_RGT_0. intros H0. apply Rmult_integral in H0.
      destruct H0 as [H0|H0]; [contradiction|].
      revert H0. apply Rinv_neq_0_compat. lra. }
    rewrite array_div_scalar_Ret by exact Hf0. cbn [bind]. unfold array_div.
    rewrite zon_quotients_nonzero by exact Hf0. cbn [bind]. eauto.
  - destruct (0 <? m (simpar g))%Z; eauto.
Qed.

Lemma In_cutoff_mask (wmax : R) (fr : list R) (f : R) :
  In f (select (cutoff_mask wmax fr) fr) <-> In f fr /\ Rabs (2 * PI * f) <= wmax.
Proof.
  unfold cutoff_mask. rewrite In_select_test. now rewrite leb_le.
Qed.

Lemma In_zon_mask (fr : list R) (f : R) :
  In f (select (zon_mask fr) fr) <-> In f fr /\ zon_kept f.
Proof.
  unfold zon_mask, zon_kept. rewrite In_select_test.
  rewrite andb_true_iff, negb_true_iff, ltb_lt, eqb_neq. reflexivity.
Qed.

(** What mode 0 leaves in the structure. *)
Lemma calc_impedance_long (g g' : GlobData) :
  m (simpar g) = 0%Z -> calc_impedance g = Ret g' ->
  exists (fr : list R) (Z : list cplx),
    length Z = length fr /\
    let indcs := cutoff_mask (cutoff (simpar g) / (bunlen (simpar g) / c_light)) fr in
    let fr' := select indcs fr in
    let imz := map (fun z => - snd z) (select indcs Z) in
    let nax := map (fun f => f / (omega0 (ringpar g) / (2 * PI)))
                 (select (zon_mask fr') fr') in
    results g' =
    set_long (results g) fr' (map fst (select indcs Z)) imz nax
      (zip_with Rdiv (select (zon_mask fr') imz) nax).
Proof.
  intros Hm H. apply calc_impedance_inv in H.
  destruct H as (s_first & s_last & dt0 & fr0 & Z & wmax & _ & _ & _ & _ & Ew & H).
  cbv zeta in H. destruct H as [HlenZ H].
  apply truediv_inv in Ew. destruct Ew as [_ ->].
  destruct H as [[_ (nax & zon & En & Ez & ->)]|[[Hp _]|[Hn _]]]; try lia.
  apply array_div_scalar_inv in En. destruct En as [-> _].
  apply array_div_inv in Ez. subst zon.
  eexists _, Z. split; [exact HlenZ|]. reflexivity.
Qed.

(** What a mode at or above 0 stores: the frequencies and the spectrum
    under one mask, the parts of the spectrum mapped by the convention of
    the mode. *)
Lemma calc_impedance_retained (g g' : GlobData) :
  (0 <= m (simpar g))%Z ->
  calc_impedance g = Ret g' ->
  exists (fr : list R) (Z : list cplx),
    let indcs := cutoff_mask (cutoff (simpar g) / (bunlen (simpar g) / c_light)) fr in
    length Z = length fr /\
    freq (results g') = select indcs fr /\
    (m (simpar g) = 0%Z ->
     ReZlong (results g') = map fst (select indcs Z) /\
     ImZlong (results g') = map (fun z => - snd z) (select indcs Z)) /\
    ((0 < m (simpar g))%Z ->
     ReZt (results g') = map snd (select indcs Z) /\
     ImZt (results g') = map fst (select indcs Z)).
Proof.
  intros Hm H. apply calc_impedance_inv in H.
  destruct H as (s_first & s_last & dt0 & fr0 & Z & wmax & _ & _ & _ & _ & Ew & H).
  cbv zeta in H. destruct H as [HlenZ H].
  apply truediv_inv in Ew. destruct Ew as [_ ->].
  exists (roll fr0 (length (W (results g)) / 2)), Z. cbv zeta.
  split; [exact HlenZ|].
  destruct H as [[Hm0 (nax & zon & _ & _ & ->)]|[[Hp ->]|[Hn _]]]; [| |lia].
  - simpl. split; [reflexivity|]. split; [now split|lia].
  - simpl. split; [reflexivity|]. split; [lia|now split].
Qed.


(** C2.  Every frequency that [calc_impedance] retains satisfies
    [|2 pi f| <= cutoff / (bunlen / c)], and the impedance arrays of the mode
    ([ReZlong], [ImZlong] for mode 0; [ReZt], [ImZt] for a mode above 0) hold
    one value per retained frequency. *)
Theorem cutoff_invariant (g g' : GlobData) :
  (0 <= m (simpar g))%Z ->
  calc_impedance g = Ret g' ->
  Forall (fun f => Rabs (2 * PI * f)
                   <= cutoff (simpar g) / (bunlen (simpar g) / c_light))
         (freq (results g')) /\
  (m (simpar g) = 0%Z ->
   length (ReZlong (results g')) = length (freq (results g')) /\
   length (ImZlong (results g')) = length (freq (results g'))) /\
  ((0 < m (simpar g))%Z ->
   length (ReZt (results g')) = length (freq (results g')) /\
   length (ImZt (results g')) = length (freq (results g'))).
Proof.
  intros Hm H.
  destruct (calc_impedance_retained g g' Hm H) as (fr & Z & HlenZ & Hf & H0 & H1).
  set (indcs := cutoff_mask _ fr) in *.
  assert (Hsel : length (select indcs Z) = length (select indcs fr))
    by (now apply length_select_same).
  rewrite Hf. split; [|split].
  - apply Forall_forall. intros f Hin. now apply In_cutoff_mask in Hin.
  - intros Hm0. destruct (H0 Hm0) as [-> ->]. now rewrite !length_map.
  - intros Hp. destruct (H1 Hp) as [-> ->]. now rewrite !length_map.
Qed.

(** C3, as the code has it.  In mode 0 the Z/n arrays are computed exactly
    over the retained frequencies with [2 pi |f| < 20e9] (an angular frequency
    below 20e9 rad/s) and [f <> 0]: [naxis] is [f / f0] over these, and
    [ImZoN] is [ImZlong] over these divided by [naxis], one value each. *)
Theorem zon_range (g g' : GlobData) :
  m (simpar g) = 0%Z ->
  calc_impedance g = Ret g' ->
  let r := results g' in
  let f0 := omega0 (ringpar g) / (2 * PI) in
  (forall f, In f (select (zon_mask (freq r)) (freq r))
             <-> In f (freq r) /\ 2 * PI * Rabs f < 20e9 /\ f <> 0) /\
  naxis r = map (fun f => f / f0) (select (zon_mask (freq r)) (freq r)) /\
  ImZoN r = zip_with Rdiv (select (zon_mask (freq r)) (ImZlong r)) (naxis r) /\
  length (ImZoN r) = length (naxis r).
Proof.
  intros Hm H. destruct (calc_impedance_long g g' Hm H) as (fr & Z & HlenZ & Hr).
  cbv zeta in *. rewrite Hr. simpl.
  split; [intros f; apply In_zon_mask|].
  split; [reflexivity|]. split; [reflexivity|].
  rewrite length_zip_with, !length_map.
  set (indcs := cutoff_mask _ fr).
  rewrite (length_select_same _ (map (fun z => - snd z) (select indcs Z)) (select indcs fr)).
  - lia.
  - rewrite length_map. now apply length_select_same.
Qed.

(* ================================================================== *)
(** ** calc_impedance on a wake of two samples *)

Lemma Ringpar_init_omega0 : omega0 Ringpar_init <> 0.
Proof.
  simpl. pose proof PI_RGT_0 as Hpi. intros H.
  assert (2 * PI * 299792458 = 0).
  { apply Rmult_eq_reg_r with (/ 518.396).
    - unfold Rdiv in H. lra.
    - apply Rinv_neq_0_compat. lra. }
  lra.
Qed.

Lemma two_sample_returns : exists g', calc_impedance two_sample_wake = Ret g'.
Proof.
  apply calc_impedance_returns; simpl; try discriminate; try lra.
  apply Ringpar_init_omega0.
Qed.

Lemma window_two : window 2 = [0.75; 0.75].
Proof.
  assert (L : length (window 2) = 2%nat) by apply length_window.
  assert (E0 : nth 0 (window 2) 0 = 0.75).
  { rewrite nth_window, nth_hanning by lia. simpl INR.
    replace (2 * PI * 1 / (1 + 1 + 1)) with (2 * (PI / 3)) by field.
    rewrite cos_2PI3. lra. }
  assert (E1 : nth 1 (window 2) 0 = 0.75).
  { rewrite nth_window, nth_hanning by lia.
    change (2 - 1 + 1)%nat with 2%nat.
    rewrite (hann_peak_pair 2) by lia. simpl INR.
    replace (2 * PI * 1 / (1 + 1 + 1)) with (2 * (PI / 3)) by field.
    rewrite cos_2PI3. lra. }
  destruct (window 2) as [|a [|b [|c l]]]; try discriminate.
  simpl in E0, E1. now subst.
Qed.

Lemma fft_two_equal (a : R) (y : list cplx) :
  fft [a; a] = Ret y -> y = [(2 * a, 0); (0, 0)].
Proof.
  unfold fft. intros H. injection H as <-.
  cbn [length seq map combine csum fold_right cadd cscale cis fst snd].
  simpl INR. unfold cadd, cscale, cis. cbn [fst snd].
  replace (- (2 * PI * 0 * 0 / (1 + 1))) with 0 by (unfold Rdiv; ring).
  replace (- (2 * PI * 0 * 1 / (1 + 1))) with 0 by (unfold Rdiv; ring).
  replace (- (2 * PI * 1 * 0 / (1 + 1))) with 0 by (unfold Rdiv; ring).
  replace (- (2 * PI * 1 * 1 / (1 + 1))) with (- PI) by field.
  rewrite cos_0, sin_0, cos_neg, sin_neg, cos_PI, sin_PI.
  f_equal; [|f_equal]; f_equal; ring.
Qed.

Lemma fftfreq_two (d : R) (fr0 : list R) :
  fftfreq 2 d = Ret fr0 -> roll fr0 1 = [- (1 / (2 * d)); 0].
Proof.
  unfold fftfreq. intros H. inv_bind_as H val Ev.
  apply scalar_div_inv in Ev. destruct Ev as [_ ->].
  injection H as <-. simpl.
  cbv [roll length Nat.modulo Nat.divmod Nat.sub skipn firstn app fst snd].
  replace ((1 + 1) * d) with (2 * d) by ring.
  f_equal; [|f_equal]; unfold Rdiv; ring.
Qed.

(** The run on the two-sample wake, step by step: the transform of the
    windowed wake is [1.5e12; 0], the bins are -5 GHz and 0, both within the
    cutoff, and neither enters Z/n. *)
Lemma two_sample_spectrum :
  calc_impedance two_sample_wake = Ret two_sample_impedance.
Proof.
  destruct two_sample_returns as [g' H]. rewrite H. f_equal.
  apply calc_impedance_steps in H.
  destruct H as (s_first & s_last & dt0 & fftt & fr0 & wmax
                 & El & Ef & Ed & Efft & Efr & Ew & H).
  cbv zeta in H. destruct H as [HlenZ H].
  change (getitem [0; 0.0299792458] (-1) = Ret s_last) in El.
  change (getitem [0; 0.0299792458] 0 = Ret s_first) in Ef.
  injection El as <-. injection Ef as <-.
  apply scalar_div_inv in Ed. destruct Ed as [_ ->].
  apply truediv_inv in Ew. destruct Ew as [_ ->].
  change (length (s (results two_sample_wake))) with 2%nat in *.
  change (length (W (results two_sample_wake))) with 2%nat in *.
  change (W (results two_sample_wake)) with [1; 1] in *.
  change (cutoff (simpar two_sample_wake)) with 2 in *.
  change (bunlen (simpar two_sample_wake)) with 1e-3 in *.
  apply fftfreq_two in Efr. change (2 / 2)%nat with 1%nat in *. rewrite Efr in *.
  replace ((0.0299792458 - 0) / (INR 2 - 1) / c_light) with 1e-10 in *
    by (unfold c_light; simpl INR; lra).
  replace (- (1 / (2 * 1e-10))) with (-5e9) in * by lra.
  rewrite window_two in Efft. cbn [map zip_with] in Efft.
  replace (1 * 1e12 * 0.75) with 75e10 in Efft by lra.
  apply fft_two_equal in Efft. subst fftt.
  change (roll [(2 * 75e10, 0); (0, 0)] 1) with [(0, 0); (2 * 75e10, 0)] in *.
  set (Z := raw_spectrum _ _ _ _ _) in *.
  assert (HZ : Z = [(0, 0); (150, 0)]).
  { unfold Z, raw_spectrum.
    cbn [map zip_with]. unfold cmul, cscale, cdivr, cis. cbn [fst snd].
    replace (- (2 * PI * -5e9 * 0 / c_light)) with 0 by (unfold Rdiv; ring).
    replace (- (2 * PI * 0 * 0 / c_light)) with 0 by (unfold Rdiv; ring).
    replace (- (2 * PI * 0 * (1e-3 / c_light)) ^ 2 / 2) with 0
      by (unfold Rdiv; ring).
    rewrite exp_0, cos_0, sin_0.
    set (J := exp _). assert (HJ : J <> 0).
    { unfold J. pose proof (exp_pos (- (2 * PI * -5e9 * (1e-3 / c_light)) ^ 2 / 2)). lra. }
    f_equal; [|f_equal]; f_equal; try (field; exact HJ); lra. }
  rewrite HZ in *. clear Z HZ HlenZ.
  pose proof PI_RGT_0 as Hpi. pose proof PI_4 as Hpi4. pose proof PI2_3_2 as Hpi3.
  assert (M1 : leb (Rabs (2 * PI * -5e9)) (2 / (1e-3 / c_light)) = true).
  { apply leb_true. rewrite Rabs_left by lra. unfold c_light.
    replace (2 / (1e-3 / 299792458)) with 599584916000 by (field; lra). lra. }
  assert (M2 : leb (Rabs (2 * PI * 0)) (2 / (1e-3 / c_light)) = true).
  { apply leb_true. replace (2 * PI * 0) with 0 by ring. rewrite Rabs_R0.
    unfold c_light.
    replace (2 / (1e-3 / 299792458)) with 599584916000 by (field; lra). lra. }
  assert (Hmask : cutoff_mask (2 / (1e-3 / c_light)) [-5e9; 0] = [true; true]).
  { unfold cutoff_mask. cbn [map]. now rewrite M1, M2. }
  assert (Hzon : zon_mask [-5e9; 0] = [false; false]).
  { unfold zon_mask. cbn [map].
    rewrite (ltb_false (2 * PI * Rabs (-5e9))).
    2:{ rewrite Rabs_left by lra. lra. }
    replace (eqb 0 0) with true by (symmetry; now apply eqb_eq).
    now rewrite andb_false_r. }
  rewrite Hmask in H. cbn [select map fst snd] in H. rewrite Hzon in H.
  cbn [select] in H.
  destruct H as [[_ (nax & zon & En & Ez & ->)]|[[Hp _]|[Hn _]]];
    [|simpl in Hp; lia|simpl in Hn; lia].
  injection En as <-. unfold array_div in Ez. cbn [existsb zip_with] in Ez.
  injection Ez as <-.
  replace (- 0) with 0 by ring. reflexivity.
Qed.

Lemma cutoff_invariant_witness :
  Forall (fun f => Rabs (2 * PI * f) <= 2 / (1e-3 / c_light)) [-5e9; 0] /\
  (0%Z = 0%Z ->
   length (ReZlong (results two_sample_impedance))
   = length (freq (results two_sample_impedance)) /\
   length (ImZlong (results two_sample_impedance))
   = length (freq (results two_sample_impedance))) /\
  ((0 < 0)%Z ->
   length (ReZt (results two_sample_impedance))
   = length (freq (results two_sample_impedance)) /\
   length (ImZt (results two_sample_impedance))
   = length (freq (results two_sample_impedance))).
Proof.
  apply (cutoff_invariant two_sample_wake two_sample_impedance).
  - simpl. lia.
  - exact two_sample_spectrum.
Defined.

Lemma zon_range_witness :
  let r := results two_sample_impedance in
  let f0 := omega0 Ringpar_init / (2 * PI) in
  (forall f, In f (select (zon_mask (freq r)) (freq r))
             <-> In f (freq r) /\ 2 * PI * Rabs f < 20e9 /\ f <> 0) /\
  naxis r = map (fun f => f / f0) (select (zon_mask (freq r)) (freq r)) /\
  ImZoN r = zip_with Rdiv (select (zon_mask (freq r)) (ImZlong r)) (naxis r) /\
  length (ImZoN r) = length (naxis r).
Proof.
  apply (zon_range two_sample_wake two_sample_impedance).
  - reflexivity.
  - exact two_sample_spectrum.
Defined.

(** The claim as stated fails on the two-sample wake: the retained bin at
    -5 GHz has [|omega| < 2 pi 20e9] and is not 0, and Z/n is empty. *)
Lemma zon_excludes_five_GHz :
  calc_impedance two_sample_wake = Ret two_sample_impedance /\
  In (-5e9) (freq (results two_sample_impedance)) /\
  Rabs (2 * PI * -5e9) < 2 * PI * 20e9 /\ -5e9 <> 0 /\
  naxis (results two_sample_impedance) = [] /\
  ImZoN (results two_sample_impedance) = [].
Proof.
  split; [exact two_sample_spectrum|]. split; [now left|].
  pose proof PI_RGT_0. split; [rewrite Rabs_left by lra; lra|].
  split; [lra|]. now split.
Qed.

(* ================================================================== *)
(** ** calc_loss_factor and calc_kick_factor, statement by statement *)

Lemma T0_init (g : GlobData) :
  ringpar g = Ringpar_init -> T0_of g = 518.396 / 299792458.
Proof.
  intros E. unfold T0_of. rewrite E. simpl. pose proof PI_RGT_0. field. lra.
Qed.

Lemma sqrt_2PI_pos : 0 < sqrt (2 * PI).
Proof. apply sqrt_lt_R0. pose proof PI_RGT_0. lra. Qed.

(** The factor from the wake at a bunch length other than 0. *)
Lemma wfactor_finite (wake saxis : list R) (sigs : R) :
  length wake = length saxis -> sigs <> 0 ->
  wfactor wake saxis sigs
  = Ret (Finite (trapezoid saxis
                   (zip_with Rmult wake (map (gauss_density sigs) saxis)))).
Proof.
  intros Hlen Hs. unfold wfactor.
  destruct (Req_dec_T sigs 0) as [E|_]; [contradiction|].
  unfold broadcast. rewrite !length_map, Hlen, Nat.eqb_refl.
  cbn [bind]. rewrite trapz_eq by (rewrite length_zip_with, !length_map; lia).
  cbn [bind]. do 4 f_equal.
  rewrite map_map. apply map_ext. intros x. reflexivity.
Qed.

(** The factor from the wake at the bunch length 0: nan as soon as there is
    an interval to integrate over. *)
Lemma length_diff (x : list R) : length (diff x) = (length x - 1)%nat.
Proof.
  unfold diff. rewrite length_zip_with, length_tl, length_removelast. lia.
Qed.

Lemma trapz_nan_Ret (x : list R) :
  trapz_nan (length x) x = Ret (if (length x <=? 1)%nat then Finite 0 else NaN).
Proof.
  unfold trapz_nan, broadcast.
  rewrite length_diff, repeat_length, Nat.eqb_refl. cbn [bind].
  destruct x as [|a [|b l]]; reflexivity.
Qed.

Lemma wfactor_nan (wake saxis : list R) :
  length wake = length saxis ->
  wfactor wake saxis 0
  = Ret (if (length saxis <=? 1)%nat then Finite 0 else NaN).
Proof.
  intros Hlen. unfold wfactor.
  destruct (Req_dec_T 0 0) as [_|E]; [|contradiction].
  unfold broadcast. rewrite !length_map, Hlen, Nat.eqb_refl.
  cbn [bind]. rewrite length_zip_with, length_map, Hlen, Nat.min_id.
  apply trapz_nan_Ret.
Qed.

Lemma wfactor_returns (wake saxis : list R) (sigs : R) :
  length wake = length saxis ->
  exists kW, wfactor wake saxis sigs = Ret kW.
Proof.
  intros Hlen. destruct (Req_dec_T sigs 0) as [->|Hs].
  - rewrite wfactor_nan by exact Hlen. eauto.
  - rewrite wfactor_finite by assumption. eauto.
Qed.

Lemma calc_loss_factor_inv (g g' : GlobData) :
  calc_loss_factor g = Ret g' ->
  let k := map (fun f => f * 2 * PI / c_light) (freq (results g)) in
  let sigi := linspace (bunlen (simpar g)) (sigmamax (ringpar g)) 100 in
  exists (kZi kZvec plv : list R) (kW pl : scalar),
    omega0 (ringpar g) <> 0 /\
    mapM (kfactor (ReZlong (results g)) k) sigi = Ret kZi /\
    mapM (kfactor (ReZlong (results g)) k) sigvec = Ret kZvec /\
    array_div_scalar
      (map (fun v => v * T0_of g * 1e12)
         (zip_with Rmult kZvec (map (fun i => i ^ 2) Ivec)))
      (IZR (h (ringpar g))) = Ret plv /\
    wfactor (W (results g)) (s (results g)) (bunlen (simpar g)) = Ret kW /\
    g' = with_results g (set_loss (results g) kZi sigi plv kW pl).
Proof.
  unfold calc_loss_factor. intros H.
  inv_bind_as H T0 ET. apply truediv_inv in ET. destruct ET as [Hom ->].
  inv_bind_as H kZi EkZi.
  inv_bind_as H kZvec EkZvec.
  inv_bind_as H plv Eplv.
  inv_bind_as H kW EkW.
  inv_bind_as H pl Epl.
  exists kZi, kZvec, plv, kW, pl. unfold T0_of.
  repeat (split; [assumption|]). now inversion H.
Qed.

Lemma calc_kick_factor_inv (g g' : GlobData) :
  calc_kick_factor g = Ret g' ->
  let k := map (fun f => f * 2 * PI / c_light) (freq (results g)) in
  let sigi := linspace (bunlen (simpar g)) (sigmamax (ringpar g)) 100 in
  exists (kickZi : list R) (kW : scalar),
    mapM (kfactor (ImZt (results g)) k) sigi = Ret kickZi /\
    wfactor (W (results g)) (s (results g)) (bunlen (simpar g)) = Ret kW /\
    g' = with_results g (set_kick (results g) kickZi sigi kW).
Proof.
  unfold calc_kick_factor. intros H.
  inv_bind_as H kickZ0 E0.
  inv_bind_as H kickZi Ei.
  inv_bind_as H kW EkW.
  exists kickZi, kW. repeat (split; [assumption|]). now inversion H.
Qed.

(** What either integration leaves in the structure. *)
Lemma calc_factor_inv (q : quantity) (g g' : GlobData) :
  calc_factor q g = Ret g' ->
  sigmak (results g') = linspace (bunlen (simpar g)) (sigmamax (ringpar g)) 100 /\
  mapM (kfactor (impedance_in q (results g))
          (map (fun f => f * 2 * PI / c_light) (freq (results g))))
       (sigmak (results g')) = Ret (factor_curve q (results g')).
Proof.
  destruct q; simpl; intros H.
  - apply calc_loss_factor_inv in H.
    destruct H as (kZi & kZvec & plv & kW & pl & _ & H1 & _ & _ & _ & ->).
    simpl. split; [reflexivity|exact H1].
  - apply calc_kick_factor_inv in H.
    destruct H as (kZi & kW & H1 & _ & ->).
    simpl. split; [reflexivity|exact H1].
Qed.

(** The run of [calc_loss_factor] when no statement fails: the bunch length
    may be 0. *)
Lemma calc_loss_factor_run (g : GlobData) (kW : scalar) :
  omega0 (ringpar g) <> 0 -> h (ringpar g) <> 0%Z ->
  length (ReZlong (results g)) = length (freq (results g)) ->
  wfactor (W (results g)) (s (results g)) (bunlen (simpar g)) = Ret kW ->
  calc_loss_factor g =
  Ret (with_results g
         (set_loss (results g)
            (map (wavenumber_factor (ReZlong (results g)) (freq (results g)))
               (linspace (bunlen (simpar g)) (sigmamax (ringpar g)) 100))
            (linspace (bunlen (simpar g)) (sigmamax (ringpar g)) 100)
            (map (fun x => x / IZR (h (ringpar g)))
               (map (fun v => v * T0_of g * 1e12)
                  (zip_with Rmult
                     (map (wavenumber_factor (ReZlong (results g))
                             (freq (results g))) sigvec)
                     (map (fun i => i ^ 2) Ivec))))
            kW
            (match kW with
             | Finite v =>
                 Finite (v * Iavg (ringpar g) ^ 2 * T0_of g * 1e12
                         / IZR (h (ringpar g)))
             | NaN => NaN
             end))).
Proof.
  intros Hom Hh Hlen EkW. unfold calc_loss_factor.
  rewrite truediv_Ret by exact Hom. cbn [bind].
  rewrite !mapM_kfactor by exact Hlen. cbn [bind].
  assert (Hh' : IZR (h (ringpar g)) <> 0) by (now apply not_0_IZR).
  rewrite array_div_scalar_Ret by exact Hh'. cbn [bind].
  rewrite EkW. cbn [bind]. unfold T0_of.
  destruct kW as [v|]; [rewrite scalar_div_Ret by exact Hh'|]; reflexivity.
Qed.


Lemma calc_loss_factor_returns (g : GlobData) :
  omega0 (ringpar g) <> 0 -> h (ringpar g) <> 0%Z ->
  length (ReZlong (results g)) = length (freq (results g)) ->
  length (W (results g)) = length (s (results g)) ->
  exists g', calc_loss_factor g = Ret g'.
Proof.
  intros Hom Hh Hlen Hw.
  destruct (wfactor_returns _ _ (bunlen (simpar g)) Hw) as [kW EkW].
  rewrite (calc_loss_factor_run g kW Hom Hh Hlen EkW). eauto.
Qed.



Lemma factor_curve_eq (q : quantity) (g g' : GlobData) :
  length (impedance_in q (results g)) = length (freq (results g)) ->
  calc_factor q g = Ret g' ->
  factor_curve q (results g') =
  map (wavenumber_factor (impedance_in q (results g)) (freq (results g)))
    (sigmak (results g')).
Proof.
  intros Hlen H. apply calc_factor_inv in H. destruct H as [_ H].
  rewrite mapM_kfactor in H by exact Hlen. now inversion H.
Qed.

Lemma Plossvec_eq (g g' : GlobData) :
  length (ReZlong (results g)) = length (freq (results g)) ->
  calc_loss_factor g = Ret g' ->
  Plossvec (results g') =
  map (fun p =>
         wavenumber_factor (ReZlong (results g)) (freq (results g)) (fst p)
         * snd p ^ 2 * T0_of g * 1e12 / IZR (h (ringpar g)))
      scenarios.
Proof.
  intros Hlen H. apply calc_loss_factor_inv in H. cbv zeta in H.
  destruct H as (kZi & kZvec & plv & kW & pl & _ & _ & Hv & Hp & _ & ->).
  rewrite mapM_kfactor in Hv by exact Hlen. inversion Hv; subst kZvec.
  apply array_div_scalar_inv in Hp. destruct Hp as [-> _].
  reflexivity.
Qed.


(** C4, as the code has it.  For every bunch length [sig] of the 100-point
    scan the frequency-domain factor of [calc_loss_factor] (on Re Z) and of
    [calc_kick_factor] (on Im Z_t) is [(c / 2 pi) * 1e-12] times the
    trapezoidal integral over the wavenumber [k = omega / c] of
    [Z * exp(-k^2 sig^2)]; in terms of the angular frequency it is
    [(1 / 2 pi) * 1e-12] times the trapezoidal integral over [omega] of
    [Z * exp(-omega^2 (sig / c)^2)]. *)
Theorem factor_is_wavenumber_integral (q : quantity) (g g' : GlobData) :
  length (impedance_in q (results g)) = length (freq (results g)) ->
  calc_factor q g = Ret g' ->
  length (factor_curve q (results g')) = 100%nat /\
  forall i, (i < 100)%nat ->
    let sig := nth i (sigmak (results g')) 0 in
    let Zs := impedance_in q (results g) in
    let fr := freq (results g) in
    nth i (factor_curve q (results g')) 0
    = c_light / (2 * PI) * 1e-12 *
      trapezoid (wavenumber_of fr) (gauss_weighted Zs (wavenumber_of fr) sig)
    /\
    nth i (factor_curve q (results g')) 0
    = / (2 * PI) * 1e-12 *
      trapezoid (omega_of fr) (gauss_weighted Zs (omega_of fr) (sig / c_light)).
Proof.
  intros Hlen H.
  pose proof (factor_curve_eq q g g' Hlen H) as Hc.
  apply calc_factor_inv in H. destruct H as [Hs _].
  assert (Hl : length (sigmak (results g')) = 100%nat).
  { rewrite Hs. apply length_linspace. }
  split; [now rewrite Hc, length_map|].
  intros i Hi. cbv zeta. rewrite Hc, nth_map_0 by lia.
  split; [reflexivity|apply wavenumber_factor_omega].
Qed.

(** C6, as the code has it.  [Plossvec] has exactly 6 entries and entry [i]
    is the frequency-domain factor at the bunch length of scenario [i] times
    [I_i^2 * T0 * 1e12 / h], for the six literal pairs of [scenarios], in
    their order. *)
Theorem Plossvec_scenarios (g g' : GlobData) :
  length (ReZlong (results g)) = length (freq (results g)) ->
  calc_loss_factor g = Ret g' ->
  length (Plossvec (results g')) = 6%nat /\
  forall i, (i < 6)%nat ->
    nth i (Plossvec (results g')) 0 =
    wavenumber_factor (ReZlong (results g)) (freq (results g))
      (fst (nth i scenarios (0, 0)))
    * snd (nth i scenarios (0, 0)) ^ 2 * T0_of g * 1e12 / IZR (h (ringpar g)).
Proof.
  intros Hlen H. rewrite (Plossvec_eq g g' Hlen H).
  split; [reflexivity|].
  intros i Hi.
  do 6 (destruct i as [|i]; [reflexivity|]). lia.
Qed.

(* ================================================================== *)
(** ** The loss factor of the two-sample wake *)

Lemma two_sample_wavenumber_factor (sig : R) :
  wavenumber_factor [0; 150] [-5e9; 0] sig = 0.375.
Proof.
  unfold wavenumber_factor, wavenumber_of, gauss_weighted.
  cbn [map zip_with trapezoid].
  replace (2 * PI * 0 / c_light) with 0 by (unfold Rdiv; ring).
  replace (- (0 ^ 2 * sig ^ 2)) with 0 by ring.
  rewrite exp_0. unfold c_light. pose proof PI_RGT_0.
  replace 0.375 with (375 / 1000) by lra. field. lra.
Qed.

Lemma two_sample_stated_factor (sig : R) :
  stated_factor [0; 150] [-5e9; 0] sig = c_light * 0.375.
Proof.
  unfold stated_factor, omega_of, gauss_weighted.
  cbn [map zip_with trapezoid].
  replace (2 * PI * 0) with 0 by ring.
  replace (- (0 ^ 2 * sig ^ 2)) with 0 by ring.
  rewrite exp_0. unfold c_light. pose proof PI_RGT_0.
  replace 0.375 with (375 / 1000) by lra. field. lra.
Qed.

Lemma two_sample_loss_returns :
  exists g', calc_loss_factor two_sample_impedance = Ret g'.
Proof.
  apply calc_loss_factor_returns.
  - apply Ringpar_init_omega0.
  - simpl. discriminate.
  - reflexivity.
  - reflexivity.
Qed.



Lemma factor_is_wavenumber_integral_witness :
  let g' := after (calc_loss_factor two_sample_impedance) in
  length (klossZ (results g')) = 100%nat /\
  forall i, (i < 100)%nat ->
    let sig := nth i (sigmak (results g')) 0 in
    nth i (klossZ (results g')) 0
    = c_light / (2 * PI) * 1e-12 *
      trapezoid (wavenumber_of [-5e9; 0])
        (gauss_weighted [0; 150] (wavenumber_of [-5e9; 0]) sig)
    /\
    nth i (klossZ (results g')) 0
    = / (2 * PI) * 1e-12 *
      trapezoid (omega_of [-5e9; 0])
        (gauss_weighted [0; 150] (omega_of [-5e9; 0]) (sig / c_light)).
Proof.
  apply (factor_is_wavenumber_integral Loss two_sample_impedance).
  - reflexivity.
  - apply after_returns, two_sample_loss_returns.
Defined.

(** The claim as stated fails on the spectrum of the two-sample wake: the
    code's factor is 0.375 at every bunch length, the integral over the
    angular frequency gives [c] times that. *)
Lemma factor_is_not_omega_integral :
  exists g', calc_loss_factor two_sample_impedance = Ret g' /\
    nth 0 (klossZ (results g')) 0 = 0.375 /\
    stated_factor (ReZlong (results two_sample_impedance))
      (freq (results two_sample_impedance))
      (nth 0 (sigmak (results g')) 0) = 299792458 * 0.375 /\
    nth 0 (klossZ (results g')) 0
    <> stated_factor (ReZlong (results two_sample_impedance))
         (freq (results two_sample_impedance))
         (nth 0 (sigmak (results g')) 0).
Proof.
  destruct two_sample_loss_returns as [g' H]. exists g'. split; [exact H|].
  pose proof (factor_curve_eq Loss two_sample_impedance g' eq_refl H) as Hc.
  apply (calc_factor_inv Loss) in H. destruct H as [Hs _].
  simpl factor_curve in Hc. rewrite Hc.
  rewrite nth_map_0 by (rewrite Hs, length_linspace; lia).
  simpl impedance_in. simpl ReZlong. simpl freq.
  rewrite two_sample_wavenumber_factor, two_sample_stated_factor.
  unfold c_light. repeat split; lra.
Qed.

Lemma Plossvec_scenarios_witness :
  let g := two_sample_impedance in
  let g' := after (calc_loss_factor g) in
  length (Plossvec (results g')) = 6%nat /\
  forall i, (i < 6)%nat ->
    nth i (Plossvec (results g')) 0 =
    wavenumber_factor [0; 150] [-5e9; 0] (fst (nth i scenarios (0, 0)))
    * snd (nth i scenarios (0, 0)) ^ 2 * T0_of g * 1e12 / IZR 864.
Proof.
  apply (Plossvec_scenarios two_sample_impedance).
  - reflexivity.
  - apply after_returns, two_sample_loss_returns.
Defined.

(** The claim as stated fails on the same spectrum: the first entry carries
    the factor 1e12. *)
Lemma Plossvec_not_unscaled :
  exists g', calc_loss_factor two_sample_impedance = Ret g' /\
    nth 0 (Plossvec (results g')) 0
    = 0.375 * (500 * 1e-3) ^ 2 * (518.396 / 299792458) * 1e12 / 864 /\
    nth 0 (Plossvec (results g')) 0
    <> wavenumber_factor (ReZlong (results two_sample_impedance))
         (freq (results two_sample_impedance)) (2.65 * 1e-3)
       * (500 * 1e-3) ^ 2 * T0_of two_sample_impedance
       / IZR (h (ringpar two_sample_impedance)).
Proof.
  destruct two_sample_loss_returns as [g' H]. exists g'. split; [exact H|].
  rewrite (Plossvec_eq two_sample_impedance g' eq_refl H).
  cbn [scenarios map nth fst snd].
  simpl ReZlong. simpl freq. rewrite !two_sample_wavenumber_factor.
  rewrite (T0_init two_sample_impedance) by reflexivity.
  simpl h. split; lra.
Qed.

(* ================================================================== *)
(** ** Which exceptions the computations can raise *)


































(* ================================================================== *)
(** ** load_wake *)

(** An ACE3P load never returns: the shift reads [simpar.sigma]. *)
Lemma load_wake_ACE3P (fs : filesystem) (g : GlobData) :
  startswith (datasource (simpar g)) "ACE3P" = true ->
  forall g', load_wake fs g <> Ret g'.
Proof.
  intros Hd g'. unfold load_wake. apply bind_not_Ret.
  intros sw b. rewrite Hd. simpl. discriminate.
Qed.

(** A GdfidL dipole load never returns: the shift needs [textscan]. *)
Lemma read_files_GdfidL_dipole (fs : filesystem) (p : paths)
  (dsrc : string) (sym0 : Z) (whaxis : string) :
  startswith dsrc "GdfidL" = true ->
  forall r, read_files fs p dsrc 1 sym0 whaxis <> Ret r.
Proof.
  intros Hd r. unfold read_files. rewrite Hd. simpl.
  repeat (apply bind_not_Ret; intros ? ?).
  simpl. discriminate.
Qed.

Lemma load_wake_GdfidL_dipole (fs : filesystem) (g : GlobData) :
  startswith (datasource (simpar g)) "GdfidL" = true ->
  m (simpar g) = 1%Z ->
  forall g', load_wake fs g <> Ret g'.
Proof.
  intros Hd Hm g' H. unfold load_wake in H.
  apply bind_Ret_inv in H. destruct H as (sw & E & _).
  rewrite Hm in E. revert E. now apply read_files_GdfidL_dipole.
Qed.

(** The single-file branch in longitudinal mode: the wake is minus the
    second column of the file. *)
Lemma read_files_long (fs : filesystem) (p : paths) (dsrc : string)
  (sym0 : Z) (whaxis : string) (spos wake : list R) :
  startswith dsrc "GdfidL" = false ->
  read_files fs p dsrc 0 sym0 whaxis = Ret (spos, wake) ->
  exists path skip rows col,
    p_wakepath p = Some path /\ p_headerL p = Some skip /\
    loadtxt fs path skip = Ret rows /\
    column rows 0 = Ret spos /\ column rows 1 = Ret col /\
    wake = map Ropp col.
Proof.
  intros Hd H. unfold read_files in H. rewrite Hd in H. simpl negb in H. cbv iota in H.
  apply bind_Ret_inv in H. destruct H as (wp & Ewp & H).
  apply bind_Ret_inv in H. destruct H as (hl & Ehl & H).
  apply bind_Ret_inv in H. destruct H as (rows & Erows & H).
  apply bind_Ret_inv in H. destruct H as (sp & Esp & H).
  apply bind_Ret_inv in H. destruct H as (col & Ecol & H).
  simpl in H. injection H as <- <-.
  exists wp, hl, rows, col.
  destruct (p_wakepath p); [|discriminate]. injection Ewp as ->.
  destruct (p_headerL p); [|discriminate]. injection Ehl as ->.
  repeat split; assumption.
Qed.

Lemma load_wake_long (fs : filesystem) (g g' : GlobData) :
  startswith (datasource (simpar g)) "GdfidL" = false ->
  m (simpar g) = 0%Z ->
  load_wake fs g = Ret g' ->
  exists path skip rows col,
    loadtxt fs path skip = Ret rows /\ column rows 1 = Ret col /\
    W (results g') = map Ropp col.
Proof.
  intros Hd Hm H. unfold load_wake in H.
  apply bind_Ret_inv in H. destruct H as ([spos wake] & E & H).
  rewrite Hm in E, H.
  apply read_files_long in E; [|exact Hd].
  destruct E as (path & skip & rows & col & _ & _ & Erows & _ & Ecol & ->).
  exists path, skip, rows, col. split; [exact Erows|]. split; [exact Ecol|].
  apply bind_Ret_inv in H. destruct H as ([spos' wake'] & E' & H).
  injection H as <-. simpl.
  destruct (startswith _ "ACE3P"); [discriminate|].
  destruct (startswith _ "CST"); [simpl in E'; now injection E' as <- <-|].
  destruct (startswith _ "ECHO"); simpl in E'; now injection E' as <- <-.
Qed.

(** C8, the code at an ACE3P input.  With a well-formed [wakefield.out],
    [load_wake] does not return positions shifted by 5 bunch lengths: the
    shift reads [globdata.simpar.sigma], an attribute [Simpar] does not have,
    and the call ends in AttributeError, in every mode. *)
Theorem ACE3P_shift_reads_missing_attribute (m0 : Z) :
  load_wake wake_directory (prepare_struct_for_load None m0 5e-4 "run" "ACE3P")
  = Raise AttributeError.
Proof. reflexivity. Qed.

(** C7, the code at a GdfidL dipole input.  With the symmetry flag set and
    well-formed probe and companion files, [load_wake] does not return the
    averaged wake divided by the shift: the shift is parsed by [textscan],
    a name the module never defines, and the call ends in NameError. *)
Theorem GdfidL_dipole_needs_textscan :
  load_wake wake_directory (prepare_struct_for_load None 1 5e-4 "run" "GdfidL")
  = Raise NameError.
Proof. reflexivity. Qed.

(** C10, the code at the inputs of longitudinal mode.  The branch shared by
    the sources other than GdfidL negates the second column for ACE3P as for
    CST and ECHO; for CST and ECHO [load_wake] returns that wake, and CST adds
    its own negation only in a mode above 0; for ACE3P the call ends in
    AttributeError before the wake is stored. *)
Theorem longitudinal_negation_shared :
  read_files wake_directory (select_paths "ACE3P" 0 1 "y" "run") "ACE3P" 0 1 "y"
  = Ret ([0; 1; 2], map Ropp [3; -4; 5]) /\
  load_wake wake_directory (prepare_struct_for_load None 0 5e-4 "run" "ACE3P")
  = Raise AttributeError /\
  (forall code, In code ["CST"; "ECHO"]%string ->
     exists g',
       load_wake wake_directory (prepare_struct_for_load None 0 5e-4 "run" code)
       = Ret g' /\
       W (results g') = map Ropp [3; -4; 5]) /\
  (exists g',
     load_wake wake_directory (prepare_struct_for_load None 1 5e-4 "run" "CST")
     = Ret g' /\
     W (results g') = map Ropp [3; -4; 5]).
Proof.
  split; [reflexivity|]. split; [reflexivity|]. split.
  - intros code [<-|[<-|[]]]; eexists; split; reflexivity.
  - eexists; split; reflexivity.
Qed.

(* ================================================================== *)
(** ** load_wake: one file per source *)

Lemma Ret_inj {A : Type} (a b : A) : Ret a = Ret b -> a = b.
Proof. intros H. now injection H. Qed.

Lemma first_letter (p s : string) (a b : ascii) :
  a <> b -> startswith (String a s) (String b p) = false.
Proof.
  intros Hab. unfold startswith. cbn [String.prefix].
  destruct (ascii_dec b a) as [E|E]; [symmetry in E; contradiction|reflexivity].
Qed.

(** The four source tags start with four different letters. *)
Lemma source_tags_exclusive (dsrc : string) :
  (startswith dsrc "CST" = true ->
   startswith dsrc "ACE3P" = false /\ startswith dsrc "GdfidL" = false) /\
  (startswith dsrc "ECHO" = true ->
   startswith dsrc "ACE3P" = false /\ startswith dsrc "GdfidL" = false /\
   startswith dsrc "CST" = false).
Proof.
  destruct dsrc as [|a s].
  - split; intros H; discriminate H.
  - split; intros H; unfold startswith in H; cbn [String.prefix] in H.
    + destruct (ascii_dec "C" a) as [<-|]; [|discriminate].
      split; apply first_letter; discriminate.
    + destruct (ascii_dec "E" a) as [<-|]; [|discriminate].
      repeat split; apply first_letter; discriminate.
Qed.

(** The branch of a source other than GdfidL, in every mode. *)
Lemma read_files_single (fs : filesystem) (p : paths) (dsrc : string)
  (m0 sym0 : Z) (whaxis : string) (spos wake : list R) :
  startswith dsrc "GdfidL" = false ->
  read_files fs p dsrc m0 sym0 whaxis = Ret (spos, wake) ->
  exists path skip rows col,
    p_wakepath p = Some path /\ p_headerL p = Some skip /\
    loadtxt fs path skip = Ret rows /\
    column rows 0 = Ret spos /\ column rows 1 = Ret col /\
    wake = if (m0 =? 0)%Z then map Ropp col else col.
Proof.
  intros Hd H. unfold read_files in H. rewrite Hd in H. simpl negb in H. cbv iota in H.
  apply bind_Ret_inv in H. destruct H as (wp & Ewp & H).
  apply bind_Ret_inv in H. destruct H as (hl & Ehl & H).
  apply bind_Ret_inv in H. destruct H as (rows & Erows & H).
  apply bind_Ret_inv in H. destruct H as (sp & Esp & H).
  apply bind_Ret_inv in H. destruct H as (col & Ecol & H).
  injection H as <- <-.
  exists wp, hl, rows, col.
  destruct (p_wakepath p); [|discriminate]. injection Ewp as ->.
  destruct (p_headerL p); [|discriminate]. injection Ehl as ->.
  repeat split; assumption.
Qed.

Lemma read_files_GdfidL (fs : filesystem) (p : paths)
  (dsrc : string) (m0 sym0 : Z) (whaxis : string) :
  startswith dsrc "GdfidL" = true ->
  forall r, read_files fs p dsrc m0 sym0 whaxis <> Ret r.
Proof.
  intros Hd r. unfold read_files. rewrite Hd. cbn [negb].
  destruct (m0 =? 0)%Z; [discriminate|].
  destruct (m0 =? 1)%Z.
  { simpl. repeat (apply bind_not_Ret; intros ? ?). simpl. discriminate. }
  destruct (m0 =? 2)%Z; [|discriminate].
  simpl.
  apply bind_not_Ret; intros ? ?. apply bind_not_Ret; intros ? ?.
  apply bind_not_Ret; intros ? ?. apply bind_not_Ret; intros ? ?.
  apply bind_not_Ret; intros ? ?. apply bind_not_Ret; intros ? ?.
  apply bind_not_Ret; intros ? ?.
  destruct (startswith whaxis "x"); [simpl; discriminate|].
  destruct (startswith whaxis "y"); simpl; discriminate.
Qed.

Lemma select_paths_single (g : GlobData) :
  startswith (datasource (simpar g)) "GdfidL" = false ->
  let p := select_paths (datasource (simpar g)) (m (simpar g)) (sym (simpar g))
             (whichaxis (simpar g)) (wakepath (simpar g)) in
  match single_file g with
  | Some (file, skip) => p_wakepath p = Some file /\ p_headerL p = Some skip
  | None => p_wakepath p = None
  end.
Proof.
  intros Hd. unfold single_file, select_paths. rewrite Hd.
  destruct (startswith _ "ACE3P"); [now split|].
  destruct (startswith _ "CST"); [now split|].
  destruct (startswith _ "ECHO"); [|reflexivity].
  destruct (m (simpar g) =? 0)%Z; [now split|].
  destruct (0 <? m (simpar g))%Z; [|reflexivity].
  destruct (truthy (sym (simpar g))); [now split|reflexivity].
Qed.

Lemma column_inv (rows : list (list R)) (j : nat) (col : list R) :
  column rows j = Ret col ->
  col = map (fun r => nth j r 0) rows /\ (2 <= length rows)%nat.
Proof.
  unfold column. destruct rows as [|r0 [|r1 rows]]; try discriminate.
  destruct (_ && _)%bool; [|discriminate].
  intros H. injection H as <-. split; [reflexivity|simpl; lia].
Qed.

Lemma column_short (rows : list (list R)) (j : nat) :
  (length rows < 2)%nat -> column rows j = Raise IndexError.
Proof.
  destruct rows as [|r0 [|r1 rows]]; simpl; intros H; try reflexivity. lia.
Qed.

Lemma parse_rows_text (ls : list line) (l : line) :
  In l ls -> numbers l = None -> parse_rows ls = Raise ValueError.
Proof.
  induction ls as [|l0 ls IH]; intros Hin Hn; [contradiction|].
  simpl. destruct Hin as [->|Hin].
  - now rewrite Hn.
  - specialize (IH Hin Hn).
    destruct (numbers l0) as [[|x r]|]; [exact IH| |reflexivity].
    now rewrite IH.
Qed.

(** A load from a single file, statement by statement. *)
Lemma load_wake_single (fs : filesystem) (g g' : GlobData) :
  load_wake fs g = Ret g' ->
  exists file skip rows,
    single_file g = Some (file, skip) /\
    startswith (datasource (simpar g)) "ACE3P" = false /\
    startswith (datasource (simpar g)) "GdfidL" = false /\
    loadtxt fs file skip = Ret rows /\ (2 <= length rows)%nat /\
    let col0 := map (fun r => nth 0 r 0) rows in
    let col1 := map (fun r => nth 1 r 0) rows in
    let wake := if (m (simpar g) =? 0)%Z then map Ropp col1 else col1 in
    g' = with_results g
           (if startswith (datasource (simpar g)) "CST" then
              set_wake (results g) (map (fun x => x / 1000) col0)
                (if (0 <? m (simpar g))%Z then map Ropp wake else wake)
            else if startswith (datasource (simpar g)) "ECHO" then
              set_wake (results g) (map (fun x => x / 100) col0) wake
            else set_wake (results g) col0 wake).
Proof.
  intros H. unfold load_wake in H.
  apply bind_Ret_inv in H. destruct H as ([spos wake] & E & H).
  destruct (startswith (datasource (simpar g)) "GdfidL") eqn:Hd.
  { exfalso. revert E. now apply read_files_GdfidL. }
  apply read_files_single in E; [|exact Hd].
  destruct E as (path & skip & rows & col & Ep & Eh & Erows & E0 & E1 & ->).
  pose proof (select_paths_single g Hd) as Hs. cbv zeta in Hs.
  destruct (single_file g) as [[file skip']|]; [|congruence].
  destruct Hs as [Hs1 Hs2]. rewrite Hs1 in Ep. rewrite Hs2 in Eh.
  injection Ep as <-. injection Eh as <-.
  apply column_inv in E0, E1. destruct E0 as [-> Hl], E1 as [-> _].
  apply bind_Ret_inv in H. destruct H as ([spos' wake'] & E' & H).
  injection H as <-.
  exists file, skip', rows.
  destruct (startswith _ "ACE3P"); [discriminate|].
  repeat (split; [first [reflexivity|assumption]|]). cbv zeta.
  destruct (startswith _ "CST"); [simpl in E'; now injection E' as <- <-|].
  destruct (startswith _ "ECHO"); simpl in E'; now injection E' as <- <-.
Qed.

Lemma ACE3P_not_GdfidL (dsrc : string) :
  startswith dsrc "ACE3P" = true -> startswith dsrc "GdfidL" = false.
Proof.
  destruct dsrc as [|a s']; [discriminate|].
  unfold startswith at 1. cbn [String.prefix].
  destruct (ascii_dec "A" a) as [<-|]; [|discriminate]. intros _.
  apply first_letter. discriminate.
Qed.

Lemma single_file_not_GdfidL (g : GlobData) (file : string) (skip : nat) :
  single_file g = Some (file, skip) ->
  startswith (datasource (simpar g)) "GdfidL" = false.
Proof.
  unfold single_file. intros Hs.
  destruct (startswith _ "ACE3P") eqn:Ha; [now apply ACE3P_not_GdfidL|].
  destruct (startswith _ "GdfidL"); [discriminate|reflexivity].
Qed.

(** A load from a single file starts by reading it. *)
Lemma load_wake_reads (fs : filesystem) (g : GlobData) (file : string) (skip : nat) :
  single_file g = Some (file, skip) ->
  forall e, loadtxt fs file skip = Raise e -> load_wake fs g = Raise e.
Proof.
  intros Hs e He.
  pose proof (single_file_not_GdfidL g file skip Hs) as Hd.
  pose proof (select_paths_single g Hd) as Hp. cbv zeta in Hp. rewrite Hs in Hp.
  destruct Hp as [Hp1 Hp2].
  unfold load_wake, read_files. rewrite Hd. cbn [negb]. rewrite Hp1, Hp2.
  cbn [lookup bind]. now rewrite He.
Qed.

Lemma load_wake_short (fs : filesystem) (g : GlobData) (file : string) (skip : nat)
  (rows : list (list R)) :
  single_file g = Some (file, skip) ->
  loadtxt fs file skip = Ret rows -> (length rows < 2)%nat ->
  load_wake fs g = Raise IndexError.
Proof.
  intros Hs Hr Hl.
  pose proof (single_file_not_GdfidL g file skip Hs) as Hd.
  pose proof (select_paths_single g Hd) as Hp. cbv zeta in Hp. rewrite Hs in Hp.
  destruct Hp as [Hp1 Hp2].
  unfold load_wake, read_files. rewrite Hd. cbn [negb]. rewrite Hp1, Hp2.
  cbn [lookup bind]. rewrite Hr. cbn [bind]. now rewrite column_short.
Qed.

(** What every load that returns leaves in the structure. *)
Lemma load_wake_lengths (fs : filesystem) (g g' : GlobData) :
  load_wake fs g = Ret g' ->
  length (W (results g')) = length (s (results g')) /\
  (2 <= length (s (results g')))%nat /\
  ringpar g' = ringpar g /\ simpar g' = simpar g.
Proof.
  intros H. apply load_wake_single in H.
  destruct H as (file & skip & rows & _ & _ & _ & _ & Hl & ->). cbv zeta.
  destruct (startswith _ "CST"); [|destruct (startswith _ "ECHO")];
    destruct (m (simpar g) =? 0)%Z; try destruct (0 <? m (simpar g))%Z;
    simpl; rewrite ?length_map; repeat split; lia.
Qed.

(** X1.  A CST source is read from [wake.txt] under the wake directory with
    2 header lines skipped.  When [load_wake] returns, the positions are the
    first column divided by 1000 (mm to m) and the wake is the second column
    negated in every mode at or above 0 (in mode 0 by the branch shared by the
    single-file sources, above 0 by the CST branch); in a mode below 0 the
    second column is stored as read. *)
Theorem load_wake_CST (fs : filesystem) (g g' : GlobData) :
  startswith (datasource (simpar g)) "CST" = true ->
  load_wake fs g = Ret g' ->
  exists rows,
    loadtxt fs (path_join [wakepath (simpar g); "wake.txt"%string]) 2 = Ret rows /\
    s (results g') = map (fun r => nth 0 r 0 / 1000) rows /\
    W (results g') = if (0 <=? m (simpar g))%Z
                     then map (fun r => - nth 1 r 0) rows
                     else map (fun r => nth 1 r 0) rows.
Proof.
  intros Hc H.
  destruct (proj1 (source_tags_exclusive _) Hc) as [Ha Hg].
  apply load_wake_single in H.
  destruct H as (file & skip & rows & Hs & _ & _ & Hr & _ & ->).
  unfold single_file in Hs. rewrite Ha, Hg, Hc in Hs. injection Hs as <- <-.
  exists rows. split; [exact Hr|]. cbv zeta. rewrite Hc.
  cbn [results with_results set_wake s W].
  split; [now rewrite map_map|].
  destruct (m (simpar g) =? 0)%Z eqn:E0.
  - apply Z.eqb_eq in E0. rewrite E0. cbn. now rewrite map_map.
  - apply Z.eqb_neq in E0.
    destruct (0 <? m (simpar g))%Z eqn:E1.
    + apply Z.ltb_lt in E1.
      replace (0 <=? m (simpar g))%Z with true by (symmetry; apply Z.leb_le; lia).
      now rewrite map_map.
    + apply Z.ltb_ge in E1.
      replace (0 <=? m (simpar g))%Z with false by (symmetry; apply Z.leb_gt; lia).
      reflexivity.
Qed.

Lemma load_wake_CST_witness :
  exists rows,
    loadtxt wake_directory (path_join ["run"; "wake.txt"]%string) 2 = Ret rows /\
    s (results (after (load_wake wake_directory
                         (prepare_struct_for_load None 1 5e-4 "run" "CST"))))
    = map (fun r => nth 0 r 0 / 1000) rows /\
    W (results (after (load_wake wake_directory
                         (prepare_struct_for_load None 1 5e-4 "run" "CST"))))
    = if (0 <=? 1)%Z
      then map (fun r => - nth 1 r 0) rows
      else map (fun r => nth 1 r 0) rows.
Proof.
  apply (load_wake_CST wake_directory
           (prepare_struct_for_load None 1 5e-4 "run" "CST")).
  - reflexivity.
  - reflexivity.
Defined.

(** X2.  An ECHO source returns only in mode 0, or in a mode above 0 with a
    true symmetry flag; it then read [wake.dat] (mode 0) or [wakeT.dat] with
    no line skipped, and stores the first column divided by 100 (cm to m) and
    the second column, negated in mode 0 only.  In a mode below 0, or above 0
    with a false symmetry flag, no path is assigned and the call ends in
    UnboundLocalError. *)
Theorem load_wake_ECHO (fs : filesystem) (g : GlobData) :
  startswith (datasource (simpar g)) "ECHO" = true ->
  (forall g', load_wake fs g = Ret g' ->
     exists rows,
       (m (simpar g) = 0 \/ 0 < m (simpar g) /\ sym (simpar g) <> 0)%Z /\
       loadtxt fs (path_join [wakepath (simpar g);
                              if (m (simpar g) =? 0)%Z then "wake.dat"%string
                              else "wakeT.dat"%string]) 0 = Ret rows /\
       s (results g') = map (fun r => nth 0 r 0 / 100) rows /\
       W (results g') = if (m (simpar g) =? 0)%Z
                        then map (fun r => - nth 1 r 0) rows
                        else map (fun r => nth 1 r 0) rows) /\
  ((m (simpar g) < 0 \/ 0 < m (simpar g) /\ sym (simpar g) = 0)%Z ->
   load_wake fs g = Raise UnboundLocalError).
Proof.
  intros He.
  destruct (proj2 (source_tags_exclusive _) He) as (Ha & Hg & Hc).
  split.
  - intros g' H. apply load_wake_single in H.
    destruct H as (file & skip & rows & Hs & _ & _ & Hr & _ & ->).
    unfold single_file in Hs. rewrite Ha, Hg, Hc, He in Hs.
    exists rows. cbv zeta. rewrite Hc, He.
    cbn [results with_results set_wake s W].
    destruct (m (simpar g) =? 0)%Z eqn:E0.
    + injection Hs as <- <-. apply Z.eqb_eq in E0.
      split; [now left|]. split; [exact Hr|]. now rewrite !map_map.
    + destruct (0 <? m (simpar g))%Z eqn:E1; [|discriminate].
      unfold truthy in Hs.
      destruct (sym (simpar g) =? 0)%Z eqn:E2; [discriminate|].
      injection Hs as <- <-.
      apply Z.ltb_lt in E1. apply Z.eqb_neq in E2.
      split; [now right|]. split; [exact Hr|]. now rewrite !map_map.
  - intros Hm. unfold load_wake, read_files, select_paths.
    rewrite Ha, Hg, Hc, He. cbn [negb].
    destruct Hm as [Hm|[Hm Hsym]].
    + replace (m (simpar g) =? 0)%Z with false by (symmetry; apply Z.eqb_neq; lia).
      replace (0 <? m (simpar g))%Z with false by (symmetry; apply Z.ltb_ge; lia).
      reflexivity.
    + replace (m (simpar g) =? 0)%Z with false by (symmetry; apply Z.eqb_neq; lia).
      replace (0 <? m (simpar g))%Z with true by (symmetry; apply Z.ltb_lt; lia).
      unfold truthy. rewrite Hsym. reflexivity.
Qed.

Lemma load_wake_ECHO_witness :
  (exists rows,
     (0 = 0 \/ 0 < 0 /\ 1 <> 0)%Z /\
     loadtxt wake_directory
       (path_join ["run"%string;
                   if (0 =? 0)%Z then "wake.dat"%string else "wakeT.dat"%string]) 0
     = Ret rows /\
     s (results (after (load_wake wake_directory
                          (prepare_struct_for_load None 0 5e-4 "run" "ECHO"))))
     = map (fun r => nth 0 r 0 / 100) rows /\
     W (results (after (load_wake wake_directory
                          (prepare_struct_for_load None 0 5e-4 "run" "ECHO"))))
     = if (0 =? 0)%Z
       then map (fun r => - nth 1 r 0) rows
       else map (fun r => nth 1 r 0) rows) /\
  load_wake wake_directory (prepare_struct_for_load None (-1) 5e-4 "run" "ECHO")
  = Raise UnboundLocalError.
Proof.
  split.
  - apply (proj1 (load_wake_ECHO wake_directory
                    (prepare_struct_for_load None 0 5e-4 "run" "ECHO") eq_refl)).
    reflexivity.
  - apply (proj2 (load_wake_ECHO wake_directory
                    (prepare_struct_for_load None (-1) 5e-4 "run" "ECHO") eq_refl)).
    left. reflexivity.
Defined.

(** X3.  With a GdfidL source [load_wake] never returns, whatever the files
    hold: in mode 0 and in a mode other than 0, 1 and 2 it ends in
    UnboundLocalError ([loadres], respectively [wake], is never assigned),
    and modes 1 and 2 end at the latest at the call of the undefined
    [textscan]. *)
Theorem load_wake_GdfidL_never_returns (fs : filesystem) (g : GlobData) :
  startswith (datasource (simpar g)) "GdfidL" = true ->
  (forall g', load_wake fs g <> Ret g') /\
  (m (simpar g) = 0%Z -> load_wake fs g = Raise UnboundLocalError) /\
  ((m (simpar g) < 0 \/ 2 < m (simpar g))%Z ->
   load_wake fs g = Raise UnboundLocalError).
Proof.
  intros Hd. split; [|split].
  - intros g' H. unfold load_wake in H.
    apply bind_Ret_inv in H. destruct H as (sw & E & _).
    revert E. now apply read_files_GdfidL.
  - intros Hm. unfold load_wake, read_files. rewrite Hd, Hm. reflexivity.
  - intros Hm. unfold load_wake, read_files. rewrite Hd. cbn [negb].
    replace (m (simpar g) =? 0)%Z with false by (symmetry; apply Z.eqb_neq; lia).
    replace (m (simpar g) =? 1)%Z with false by (symmetry; apply Z.eqb_neq; lia).
    replace (m (simpar g) =? 2)%Z with false by (symmetry; apply Z.eqb_neq; lia).
    reflexivity.
Qed.

Lemma load_wake_GdfidL_never_returns_witness :
  (forall g', load_wake wake_directory
                (prepare_struct_for_load None 2 5e-4 "run" "GdfidL") <> Ret g') /\
  load_wake wake_directory (prepare_struct_for_load None 0 5e-4 "run" "GdfidL")
  = Raise UnboundLocalError /\
  load_wake wake_directory (prepare_struct_for_load None 3 5e-4 "run" "GdfidL")
  = Raise UnboundLocalError.
Proof.
  split; [|split].
  - apply (load_wake_GdfidL_never_returns wake_directory
             (prepare_struct_for_load None 2 5e-4 "run" "GdfidL")).
    reflexivity.
  - apply (proj1 (proj2 (load_wake_GdfidL_never_returns wake_directory
                           (prepare_struct_for_load None 0 5e-4 "run" "GdfidL")
                           eq_refl))).
    reflexivity.
  - apply (proj2 (proj2 (load_wake_GdfidL_never_returns wake_directory
                           (prepare_struct_for_load None 3 5e-4 "run" "GdfidL")
                           eq_refl))).
    right. reflexivity.
Defined.

(** X4.  A source tag that starts with none of ACE3P, GdfidL, CST and ECHO
    (the test is case-sensitive) assigns no path, and [load_wake] ends in
    UnboundLocalError at the first use of [wakepath]. *)
Theorem load_wake_unknown_source (fs : filesystem) (g : GlobData) :
  startswith (datasource (simpar g)) "ACE3P" = false ->
  startswith (datasource (simpar g)) "GdfidL" = false ->
  startswith (datasource (simpar g)) "CST" = false ->
  startswith (datasource (simpar g)) "ECHO" = false ->
  load_wake fs g = Raise UnboundLocalError.
Proof.
  intros Ha Hg Hc He. unfold load_wake, read_files, select_paths.
  rewrite Ha, Hg, Hc, He. reflexivity.
Qed.

Lemma load_wake_unknown_source_witness :
  load_wake wake_directory (prepare_struct_for_load None 0 5e-4 "run" "echo")
  = Raise UnboundLocalError.
Proof.
  apply (load_wake_unknown_source wake_directory
           (prepare_struct_for_load None 0 5e-4 "run" "echo")); reflexivity.
Defined.

(** X5.  For a source read from a single file: a missing file ends the load
    in OSError, a line of text after the skipped header in ValueError, and a
    file with fewer than two rows of data in IndexError (the array [loadtxt]
    returns has then one dimension and [loadres[:,0]] fails); the copy into
    the target directory is outside the model. *)
Theorem load_wake_file_failures (fs : filesystem) (g : GlobData)
  (file : string) (skip : nat) :
  single_file g = Some (file, skip) ->
  (fs file = None -> load_wake fs g = Raise OSError) /\
  (forall f l, fs file = Some f -> In l (skipn skip f) -> numbers l = None ->
               load_wake fs g = Raise ValueError) /\
  (forall rows, loadtxt fs file skip = Ret rows -> (length rows < 2)%nat ->
                load_wake fs g = Raise IndexError).
Proof.
  intros Hs. split; [|split].
  - intros Hf. apply (load_wake_reads fs g file skip Hs).
    unfold loadtxt. now rewrite Hf.
  - intros f l Hf Hin Hn. apply (load_wake_reads fs g file skip Hs).
    unfold loadtxt. rewrite Hf. now apply (parse_rows_text _ l).
  - intros rows Hr Hl. now apply (load_wake_short fs g file skip rows).
Qed.

Lemma load_wake_file_failures_witness :
  load_wake damaged_directory (prepare_struct_for_load None 0 5e-4 "run" "ACE3P")
  = Raise OSError /\
  load_wake damaged_directory (prepare_struct_for_load None 0 5e-4 "run" "CST")
  = Raise ValueError /\
  load_wake damaged_directory (prepare_struct_for_load None 0 5e-4 "run" "ECHO")
  = Raise IndexError.
Proof.
  split; [|split].
  - apply (load_wake_file_failures damaged_directory
             (prepare_struct_for_load None 0 5e-4 "run" "ACE3P")
             "run/wakefield.out" 3); reflexivity.
  - apply (proj1 (proj2 (load_wake_file_failures damaged_directory
             (prepare_struct_for_load None 0 5e-4 "run" "CST")
             "run/wake.txt" 2 eq_refl))
             (repeat (text_line "header") 2 ++ sample_rows ++ [text_line "end"])
             (text_line "end")).
    + reflexivity.
    + simpl. tauto.
    + reflexivity.
  - apply (proj2 (proj2 (load_wake_file_failures damaged_directory
             (prepare_struct_for_load None 0 5e-4 "run" "ECHO")
             "run/wake.dat" 0 eq_refl)) [[0; 3]]).
    + reflexivity.
    + simpl. lia.
Defined.

(** X6.  A load that returns stores as many wake samples as positions, at
    least two of each, and changes neither the ring parameters, nor the
    simulation parameters, nor the frequency array. *)
Theorem load_wake_shape (fs : filesystem) (g g' : GlobData) :
  load_wake fs g = Ret g' ->
  length (s (results g')) = length (W (results g')) /\
  (2 <= length (s (results g')))%nat /\
  ringpar g' = ringpar g /\ simpar g' = simpar g /\
  freq (results g') = freq (results g).
Proof.
  intros H. destruct (load_wake_lengths fs g g' H) as (HW & Hlen & Hring & Hsim).
  repeat split; try assumption; [now symmetry|].
  apply load_wake_single in H.
  destruct H as (file & skip & rows & _ & _ & _ & _ & _ & ->). cbv zeta.
  destruct (startswith _ "CST"); [|destruct (startswith _ "ECHO")]; reflexivity.
Qed.

Lemma load_wake_shape_witness :
  let g := prepare_struct_for_load None 0 5e-4 "run" "ECHO" in
  let g' := after (load_wake wake_directory g) in
  length (s (results g')) = length (W (results g')) /\
  (2 <= length (s (results g')))%nat /\
  ringpar g' = ringpar g /\ simpar g' = simpar g /\
  freq (results g') = freq (results g).
Proof.
  apply (load_wake_shape wake_directory
           (prepare_struct_for_load None 0 5e-4 "run" "ECHO")).
  reflexivity.
Defined.

Lemma column_Ret (rows : list (list R)) (j : nat) :
  (2 <= length rows)%nat -> (2 <= length (hd [] rows))%nat ->
  (j < length (hd [] rows))%nat ->
  column rows j = Ret (map (fun r => nth j r 0) rows).
Proof.
  destruct rows as [|r0 [|r1 rows]]; cbn [length hd]; intros H2 Hc Hj; try lia.
  unfold column.
  replace (2 <=? length r0)%nat with true by (symmetry; apply Nat.leb_le; lia).
  replace (j <? length r0)%nat with true by (symmetry; apply Nat.ltb_lt; lia).
  reflexivity.
Qed.

(** X19.  With an ACE3P source [load_wake] never returns, in any mode and
    whatever the files hold: once [wakefield.out] has given an array of at
    least two rows and two columns, the shift of the positions reads
    [globdata.simpar.sigma], which [Simpar] does not have, and the call ends
    in AttributeError. *)
Theorem load_wake_ACE3P_never_returns (fs : filesystem) (g : GlobData) :
  startswith (datasource (simpar g)) "ACE3P" = true ->
  (forall g', load_wake fs g <> Ret g') /\
  (forall rows,
     loadtxt fs (path_join [wakepath (simpar g); "wakefield.out"%string]) 3 = Ret rows ->
     (2 <= length rows)%nat -> (2 <= length (hd [] rows))%nat ->
     load_wake fs g = Raise AttributeError).
Proof.
  intros Ha. split.
  - intros g' H. apply load_wake_single in H.
    destruct H as (file & skip & rows & _ & Hn & _). congruence.
  - intros rows Hr H2 Hc.
    pose proof (ACE3P_not_GdfidL _ Ha) as Hg.
    unfold load_wake, read_files, select_paths. rewrite Hg, Ha. cbn [negb].
    cbn [p_wakepath p_headerL lookup bind]. rewrite Hr. cbn [bind].
    rewrite !column_Ret by (assumption || lia). reflexivity.
Qed.

Lemma load_wake_ACE3P_never_returns_witness :
  (forall g', load_wake wake_directory
                (prepare_struct_for_load None 1 5e-4 "run" "ACE3P") <> Ret g') /\
  load_wake wake_directory (prepare_struct_for_load None 1 5e-4 "run" "ACE3P")
  = Raise AttributeError.
Proof.
  destruct (load_wake_ACE3P_never_returns wake_directory
              (prepare_struct_for_load None 1 5e-4 "run" "ACE3P") eq_refl)
    as [H1 H2].
  split; [exact H1|].
  apply (H2 [[0; 3]; [1; -4]; [2; 5]]).
  - reflexivity.
  - simpl. lia.
  - simpl. lia.
Defined.

(* ================================================================== *)
(** ** calc_impedance: the frequency axis and the bin of frequency zero *)

Lemma roll_app {A : Type} (a b : list A) :
  a <> [] -> roll (a ++ b) (length b) = b ++ a.
Proof.
  intros Ha. unfold roll. rewrite length_app.
  assert (0 < length a)%nat by (destruct a; [congruence|simpl; lia]).
  destruct (length a + length b)%nat eqn:E; [lia|]. rewrite <- E.
  rewrite Nat.mod_small by lia.
  replace (length a + length b - length b)%nat with (length a) by lia.
  rewrite skipn_app, firstn_app, Nat.sub_diag, skipn_all, firstn_all.
  simpl. now rewrite app_nil_r.
Qed.

Lemma seq_offset_INR (N a b : nat) :
  map (fun t => IZR (Z.of_nat t - Z.of_nat a)) (seq (a + b) N) = map INR (seq b N).
Proof.
  revert b. induction N as [|N IH]; intros b; [reflexivity|].
  simpl. f_equal.
  - rewrite INR_IZR_INZ. f_equal. lia.
  - replace (S (a + b)) with (a + S b)%nat by lia. apply IH.
Qed.

Lemma fftfreq_centred (n : nat) (d : R) (fr0 : list R) :
  fftfreq n d = Ret fr0 -> n <> 0%nat -> roll fr0 (n / 2) = centred_bins n d.
Proof.
  unfold fftfreq. intros H Hn. inv_bind_as H val Ev.
  apply scalar_div_inv in Ev. destruct Ev as [_ ->]. injection H as <-.
  destruct n as [|n']; [congruence|]. clear Hn.
  set (h := (S n' / 2)%nat).
  assert (Hsum : (h + S (n' / 2) = S n')%nat) by (unfold h; pose proof (half_sum n'); lia).
  rewrite map_app.
  replace h with (length (map (fun r => r * (1 / (INR (S n') * d)))
                            (map (fun j => IZR (Z.of_nat j - Z.of_nat h)) (seq 0 h))))
    at 1 by (now rewrite !length_map, length_seq).
  rewrite roll_app by discriminate.
  unfold centred_bins. fold h.
  assert (Hseq : seq 0 (S n') = seq 0 h ++ seq h (S (n' / 2))).
  { rewrite <- Hsum. now rewrite seq_app. }
  pose proof (seq_offset_INR (S (n' / 2)) h 0) as Hp1. rewrite Nat.add_0_r in Hp1.
  change (fst (Nat.divmod n' 1 0 1)) with (n' / 2)%nat.
  rewrite Hseq, map_app, <- Hp1, !map_map. reflexivity.
Qed.

Lemma seq_sorted (f : nat -> R) (a n : nat) :
  (forall i j, (i < j)%nat -> f i < f j) ->
  StronglySorted Rlt (map f (seq a n)).
Proof.
  intros Hf. revert a. induction n as [|n IH]; intros a; simpl; constructor.
  - apply IH.
  - apply Forall_forall. intros x Hx. apply in_map_iff in Hx.
    destruct Hx as (j & <- & Hj). apply in_seq in Hj. apply Hf. lia.
Qed.

Lemma centred_bins_sorted (n : nat) (d : R) :
  0 < d -> StronglySorted Rlt (centred_bins n d).
Proof.
  intros Hd. destruct n as [|n']; [constructor|].
  apply seq_sorted. intros i j Hij.
  assert (0 < 1 / (INR (S n') * d)).
  { apply Rdiv_lt_0_compat; [lra|]. apply Rmult_lt_0_compat; [|exact Hd].
    apply lt_0_INR. lia. }
  apply Rmult_lt_compat_r; [assumption|]. apply IZR_lt. lia.
Qed.

Lemma select_sorted (mask : list bool) (l : list R) :
  StronglySorted Rlt l -> StronglySorted Rlt (select mask l).
Proof.
  intros Hs. revert mask. induction Hs as [|x l Hs IH Hx]; intros mask.
  - destruct mask; constructor.
  - destruct mask as [|b mask]; [constructor|]. simpl.
    destruct b; [|apply IH]. constructor; [apply IH|].
    apply Forall_forall. intros y Hy.
    assert (In y l).
    { clear - Hy. revert mask Hy. induction l as [|z l IHl]; intros [|b mask] Hy;
        simpl in Hy; try contradiction.
      destruct b; [destruct Hy as [->|Hy]; [now left|right; eauto]|right; eauto]. }
    rewrite Forall_forall in Hx. now apply Hx.
Qed.

Lemma length_select_le {A : Type} (mask : list bool) (l : list A) :
  (length (select mask l) <= length l)%nat.
Proof.
  revert l. induction mask as [|b mask IH]; intros [|x l]; simpl; try lia.
  specialize (IH l). destruct b; simpl; lia.
Qed.

Lemma In_select {A : Type} (mask : list bool) (l : list A) (x : A) :
  In x (select mask l) -> In x l.
Proof.
  revert l. induction mask as [|b mask IH]; intros [|y l] H; simpl in H;
    try contradiction.
  destruct b; [destruct H as [->|H]; [now left|right; eauto]|right; eauto].
Qed.

(** The frequencies a mode at or above 0 stores, related to the data. *)
Lemma calc_impedance_axis (g g' : GlobData) :
  (0 <= m (simpar g))%Z ->
  calc_impedance g = Ret g' ->
  let saxis := s (results g) in
  let N := length (W (results g)) in
  let dt := (nth (length saxis - 1) saxis 0 - nth 0 saxis 0)
            / (INR (length saxis) - 1) / c_light in
  saxis <> [] /\ length saxis <> 1%nat /\ N <> 0%nat /\
  bunlen (simpar g) <> 0 /\
  freq (results g') =
  select (cutoff_mask (cutoff (simpar g) / (bunlen (simpar g) / c_light))
            (centred_bins N dt))
    (centred_bins N dt).
Proof.
  intros Hm H. pose proof H as H0. apply calc_impedance_steps in H.
  destruct H as (s_first & s_last & dt0 & fftt & fr0 & wmax
                 & El & Ef & Ed & Efft & Efr & Ew & H).
  cbv zeta in H. destruct H as [_ H].
  assert (Hs : s (results g) <> []).
  { intros E. rewrite E, getitem_empty in El. discriminate. }
  rewrite (getitem_last _ 0 Hs) in El. rewrite (getitem_first _ 0 Hs) in Ef.
  injection El as <-. injection Ef as <-.
  apply scalar_div_inv in Ed. destruct Ed as [Hden ->].
  apply truediv_inv in Ew. destruct Ew as [Hsig ->].
  assert (HN : length (W (results g)) <> 0%nat).
  { intros E. apply length_zero_iff_nil in E. rewrite E in Efft. discriminate. }
  rewrite (fftfreq_centred _ _ _ Efr HN) in H.
  cbv zeta. split; [exact Hs|]. split.
  { intros E. apply Hden. rewrite E. simpl. lra. }
  split; [exact HN|]. split.
  { intros E. apply Hsig. rewrite E. unfold Rdiv. ring. }
  destruct H as [[_ (nax & zon & _ & _ & ->)]|[[_ ->]|[Hn _]]]; [| |lia];
    reflexivity.
Qed.

(** X7.  With positions that increase from the first to the last sample, the
    frequencies [calc_impedance] stores (mode at or above 0) are strictly
    increasing, hence distinct and already in plotting order; there are at
    most [N] of them for a wake of [N] samples, and each is a bin
    [j / (N dt)] of the transform with [-(N//2) <= j < N - N//2], where
    [dt] is the mean sample spacing divided by c. *)
Theorem frequency_axis_ascending (g g' : GlobData) :
  (0 <= m (simpar g))%Z ->
  nth 0 (s (results g)) 0 < nth (length (s (results g)) - 1) (s (results g)) 0 ->
  calc_impedance g = Ret g' ->
  let saxis := s (results g) in
  let N := length (W (results g)) in
  let dt := (nth (length saxis - 1) saxis 0 - nth 0 saxis 0)
            / (INR (length saxis) - 1) / c_light in
  StronglySorted Rlt (freq (results g')) /\
  (length (freq (results g')) <= N)%nat /\
  forall f, In f (freq (results g')) ->
    exists j : Z, (- Z.of_nat (N / 2) <= j < Z.of_nat N - Z.of_nat (N / 2))%Z /\
                  f = IZR j / (INR N * dt).
Proof.
  intros Hm Hends H. cbv zeta.
  destruct (calc_impedance_axis g g' Hm H) as (Hs & Hl & HN & Hb & ->).
  assert (Hlen : (2 <= length (s (results g)))%nat).
  { destruct (s (results g)) as [|x [|y l]]; simpl in *; try congruence; lia. }
  set (dt := _ / _ / c_light).
  assert (Hdt : 0 < dt).
  { unfold dt, c_light. apply Rdiv_lt_0_compat; [|lra].
    apply Rdiv_lt_0_compat; [lra|].
    assert (INR 2 <= INR (length (s (results g)))) by (apply le_INR; lia).
    simpl in H0. lra. }
  split; [apply select_sorted, centred_bins_sorted, Hdt|].
  split.
  { etransitivity; [apply length_select_le|].
    unfold centred_bins. now rewrite length_map, length_seq. }
  intros f Hf. apply In_select in Hf. unfold centred_bins in Hf.
  apply in_map_iff in Hf. destruct Hf as (t & <- & Ht). apply in_seq in Ht.
  exists (Z.of_nat t - Z.of_nat (length (W (results g)) / 2))%Z.
  split; [lia|]. unfold Rdiv. ring.
Qed.

Lemma frequency_axis_ascending_witness :
  let g := two_sample_wake in
  let g' := two_sample_impedance in
  let saxis := s (results g) in
  let N := length (W (results g)) in
  let dt := (nth (length saxis - 1) saxis 0 - nth 0 saxis 0)
            / (INR (length saxis) - 1) / c_light in
  StronglySorted Rlt (freq (results g')) /\
  (length (freq (results g')) <= N)%nat /\
  forall f, In f (freq (results g')) ->
    exists j : Z, (- Z.of_nat (N / 2) <= j < Z.of_nat N - Z.of_nat (N / 2))%Z /\
                  f = IZR j / (INR N * dt).
Proof.
  apply (frequency_axis_ascending two_sample_wake two_sample_impedance).
  - simpl. lia.
  - simpl. lra.
  - exact two_sample_spectrum.
Defined.

(** X8.  Raising the cutoff never drops a frequency: for one wake and one
    positive bunch length, every frequency stored with the smaller cutoff is
    stored with the larger one. *)
Theorem cutoff_widens (g1 g2 r1 r2 : GlobData) :
  results g1 = results g2 ->
  bunlen (simpar g1) = bunlen (simpar g2) -> 0 < bunlen (simpar g1) ->
  cutoff (simpar g1) <= cutoff (simpar g2) ->
  (0 <= m (simpar g1))%Z -> (0 <= m (simpar g2))%Z ->
  calc_impedance g1 = Ret r1 -> calc_impedance g2 = Ret r2 ->
  incl (freq (results r1)) (freq (results r2)).
Proof.
  intros Hres Hb Hpos Hc Hm1 Hm2 H1 H2.
  destruct (calc_impedance_axis g1 r1 Hm1 H1) as (_ & _ & _ & _ & ->).
  destruct (calc_impedance_axis g2 r2 Hm2 H2) as (_ & _ & _ & _ & ->).
  rewrite <- Hres, <- Hb. unfold cutoff_mask.
  intros f Hin. apply In_select_test in Hin. apply In_select_test.
  destruct Hin as [Hin Hle]. split; [exact Hin|].
  apply leb_le in Hle. apply leb_true.
  eapply Rle_trans; [exact Hle|].
  assert (0 < / (bunlen (simpar g1) / c_light)).
  { apply Rinv_0_lt_compat. unfold c_light. apply Rdiv_lt_0_compat; lra. }
  unfold Rdiv at 1 3. apply Rmult_le_compat_r; lra.
Qed.

Lemma cutoff_widens_witness :
  incl (freq (results two_sample_impedance))
       (freq (results (after (calc_impedance two_sample_wide)))).
Proof.
  apply (cutoff_widens two_sample_wake two_sample_wide); try reflexivity.
  - simpl. lra.
  - simpl. lra.
  - exact two_sample_spectrum.
  - apply after_returns. apply calc_impedance_returns; simpl; try discriminate; try lra.
    apply Ringpar_init_omega0.
Defined.











(* ================================================================== *)
(** ** calc_impedance: bunch length zero, modes, amplitudes, repeated runs *)



(** X11.  The mode does not enter the computation of the spectrum, it only
    chooses where the parts are stored: for one wake, bunch length and cutoff,
    a mode above 0 stores the frequencies of mode 0, [ImZt] is the [ReZlong] of
    mode 0 and [ReZt] is minus its [ImZlong]. *)
Theorem mode_selects_parts (g0 g1 r0 r1 : GlobData) :
  results g0 = results g1 ->
  bunlen (simpar g0) = bunlen (simpar g1) ->
  cutoff (simpar g0) = cutoff (simpar g1) ->
  m (simpar g0) = 0%Z -> (0 < m (simpar g1))%Z ->
  calc_impedance g0 = Ret r0 -> calc_impedance g1 = Ret r1 ->
  freq (results r1) = freq (results r0) /\
  ImZt (results r1) = ReZlong (results r0) /\
  ReZt (results r1) = map Ropp (ImZlong (results r0)).
Proof.
  intros Hres Hb Hc Hm0 Hm1 H0 H1.
  apply calc_impedance_steps in H0, H1.
  destruct H0 as (sf0 & sl0 & dt0 & F0 & fr0 & w0 & El0 & Ef0 & Ed0 & EF0 & Efr0 & Ew0 & H0).
  destruct H1 as (sf1 & sl1 & dt1 & F1 & fr1 & w1 & El1 & Ef1 & Ed1 & EF1 & Efr1 & Ew1 & H1).
  rewrite <- Hres, <- Hb, <- Hc in *.
  rewrite El0 in El1. apply Ret_inj in El1. subst sl1.
  rewrite Ef0 in Ef1. apply Ret_inj in Ef1. subst sf1.
  rewrite Ed0 in Ed1. apply Ret_inj in Ed1. subst dt1.
  rewrite EF0 in EF1. apply Ret_inj in EF1. subst F1.
  rewrite Efr0 in Efr1. apply Ret_inj in Efr1. subst fr1.
  rewrite Ew0 in Ew1. apply Ret_inj in Ew1. subst w1.
  cbv zeta in H0, H1. destruct H0 as [_ H0], H1 as [_ H1].
  destruct H0 as [[_ (nax & zon & _ & _ & ->)]|[[Hp _]|[Hn _]]]; [|lia|lia].
  destruct H1 as [[Hz _]|[[_ ->]|[Hn _]]]; [lia| |lia].
  cbn [results with_results set_long set_trans freq ImZt ReZt ReZlong ImZlong].
  split; [reflexivity|]. split; [reflexivity|].
  rewrite map_map. apply map_ext. intros z. now rewrite Ropp_involutive.
Qed.

Lemma mode_selects_parts_witness :
  let r1 := after (calc_impedance two_sample_transverse) in
  freq (results r1) = freq (results two_sample_impedance) /\
  ImZt (results r1) = ReZlong (results two_sample_impedance) /\
  ReZt (results r1) = map Ropp (ImZlong (results two_sample_impedance)).
Proof.
  apply (mode_selects_parts two_sample_wake two_sample_transverse);
    try reflexivity.
  - exact two_sample_spectrum.
  - apply after_returns. apply calc_impedance_returns; simpl; try discriminate; try lra.
    apply Ringpar_init_omega0.
Defined.

Lemma cscale_cadd (a : R) (u v : cplx) :
  cscale a (cadd u v) = cadd (cscale a u) (cscale a v).
Proof. unfold cscale, cadd. simpl. f_equal; ring. Qed.

Lemma cscale_cscale (a x : R) (c : cplx) : cscale (a * x) c = cscale a (cscale x c).
Proof. unfold cscale. simpl. f_equal; ring. Qed.

Lemma csum_scale (a : R) (c : nat -> cplx) (l : list nat) (x : list R) :
  csum (map (fun nx => cscale (snd nx) (c (fst nx))) (combine l (map (Rmult a) x)))
  = cscale a (csum (map (fun nx => cscale (snd nx) (c (fst nx))) (combine l x))).
Proof.
  revert x. induction l as [|n l IH]; intros [|x0 x]; simpl;
    try (unfold cscale; simpl; f_equal; ring).
  rewrite IH, cscale_cadd, cscale_cscale. reflexivity.
Qed.

Lemma fft_scale (a : R) (x : list R) (y y' : list cplx) :
  fft x = Ret y -> fft (map (Rmult a) x) = Ret y' -> y' = map (cscale a) y.
Proof.
  unfold fft. destruct x as [|x0 x]; [discriminate|].
  remember (x0 :: x) as l. intros H H'.
  assert (Hl : map (Rmult a) l = a * x0 :: map (Rmult a) x) by (now subst l).
  rewrite Hl in H'. rewrite <- Hl in H'. clear Hl.
  apply Ret_inj in H, H'. subst y y'. rewrite length_map, map_map.
  apply map_ext. intros k.
  apply (csum_scale a (fun n => cis (- (2 * PI * INR k * INR n / INR (length l))))).
Qed.

Lemma roll_map {A B : Type} (f : A -> B) (l : list A) (k : nat) :
  roll (map f l) k = map f (roll l k).
Proof.
  unfold roll. rewrite length_map. destruct (length l); [reflexivity|].
  now rewrite map_app, skipn_map, firstn_map.
Qed.

Lemma zip_scale_l (a : R) (u v : list R) :
  zip_with Rmult (map (fun x => x * 1e12) (map (Rmult a) u)) v
  = map (Rmult a) (zip_with Rmult (map (fun x => x * 1e12) u) v).
Proof.
  revert v. induction u as [|x u IH]; intros [|y v]; simpl; try reflexivity.
  rewrite IH. f_equal. ring.
Qed.

Lemma zip_div_scale (a : R) (u v : list R) :
  zip_with Rdiv (map (Rmult a) u) v = map (Rmult a) (zip_with Rdiv u v).
Proof.
  revert v. induction u as [|x u IH]; intros [|y v]; simpl; try reflexivity.
  rewrite IH. f_equal. unfold Rdiv. ring.
Qed.

Lemma spectrum_scale (a : R) (A F : list cplx) (J : list R) :
  zip_with cdivr (zip_with cmul A (map (cscale a) F)) J
  = map (cscale a) (zip_with cdivr (zip_with cmul A F) J).
Proof.
  revert F J. induction A as [|u A IH]; intros [|f F] [|j J]; simpl; try reflexivity.
  rewrite IH. f_equal. unfold cdivr, cmul, cscale, Rdiv. simpl. f_equal; ring.
Qed.

Lemma raw_spectrum_scale (a dt sf sigt : R) (fr : list R) (F : list cplx) :
  raw_spectrum dt sf sigt fr (map (cscale a) F)
  = map (cscale a) (raw_spectrum dt sf sigt fr F).
Proof. unfold raw_spectrum. apply spectrum_scale. Qed.

(** X12.  The impedance is linear in the wake: multiplying every wake sample
    by [a] leaves the frequencies (and [naxis]) as they are and multiplies
    [ReZlong], [ImZlong] and [ImZoN] (mode 0) or [ReZt] and [ImZt] (mode
    above 0) by [a]. *)
Theorem impedance_linear_in_wake (a : R) (g0 g1 r0 r1 : GlobData) :
  ringpar g1 = ringpar g0 -> simpar g1 = simpar g0 ->
  s (results g1) = s (results g0) ->
  W (results g1) = map (Rmult a) (W (results g0)) ->
  calc_impedance g0 = Ret r0 -> calc_impedance g1 = Ret r1 ->
  (0 <= m (simpar g0))%Z ->
  freq (results r1) = freq (results r0) /\
  (m (simpar g0) = 0%Z ->
   ReZlong (results r1) = map (Rmult a) (ReZlong (results r0)) /\
   ImZlong (results r1) = map (Rmult a) (ImZlong (results r0)) /\
   naxis (results r1) = naxis (results r0) /\
   ImZoN (results r1) = map (Rmult a) (ImZoN (results r0))) /\
  ((0 < m (simpar g0))%Z ->
   ReZt (results r1) = map (Rmult a) (ReZt (results r0)) /\
   ImZt (results r1) = map (Rmult a) (ImZt (results r0))).
Proof.
  intros Hring Hsim Hs HW H0 H1 Hm.
  apply calc_impedance_steps in H0, H1.
  destruct H0 as (sf0 & sl0 & dt0 & F0 & fr0 & w0 & El0 & Ef0 & Ed0 & EF0 & Efr0 & Ew0 & H0).
  destruct H1 as (sf1 & sl1 & dt1 & F1 & fr1 & w1 & El1 & Ef1 & Ed1 & EF1 & Efr1 & Ew1 & H1).
  rewrite Hring, Hsim, Hs, HW in *. rewrite length_map in *.
  rewrite El0 in El1. apply Ret_inj in El1. subst sl1.
  rewrite Ef0 in Ef1. apply Ret_inj in Ef1. subst sf1.
  rewrite Ed0 in Ed1. apply Ret_inj in Ed1. subst dt1.
  rewrite Efr0 in Efr1. apply Ret_inj in Efr1. subst fr1.
  rewrite Ew0 in Ew1. apply Ret_inj in Ew1. subst w1.
  rewrite zip_scale_l in EF1.
  pose proof (fft_scale a _ _ _ EF0 EF1) as ->.
  cbv zeta in H0, H1. rewrite roll_map, raw_spectrum_scale in H1.
  destruct H0 as [_ H0], H1 as [_ H1].
  set (fr := roll fr0 _) in *. set (Z := raw_spectrum _ _ _ _ _) in *.
  set (mask := cutoff_mask w0 fr) in *.
  rewrite (select_map (cscale a)) in H1.
  destruct H0 as [[Hz (nax & zon & En & Ez & ->)]|[[Hp ->]|[Hn _]]]; [| |lia].
  - destruct H1 as [[_ (nax' & zon' & En' & Ez' & ->)]|[[Hp _]|[Hn _]]]; [|lia|lia].
    rewrite En in En'. apply Ret_inj in En'. subst nax'.
    apply array_div_inv in Ez, Ez'. subst zon zon'.
    cbn [results with_results set_long freq ReZlong ImZlong naxis ImZoN].
    assert (Him : map (fun z : R * R => - snd z) (map (cscale a) (select mask Z))
                  = map (Rmult a) (map (fun z : R * R => - snd z) (select mask Z))).
    { rewrite !map_map. apply map_ext. intros z. unfold cscale. simpl. ring. }
    split; [reflexivity|]. split; [|lia]. intros _.
    split. { rewrite !map_map. apply map_ext. intros z. reflexivity. }
    split; [exact Him|]. split; [reflexivity|].
    rewrite Him, select_map. apply zip_div_scale.
  - destruct H1 as [[Hz _]|[[_ ->]|[Hn _]]]; [lia| |lia].
    cbn [results with_results set_trans freq ReZt ImZt].
    split; [reflexivity|]. split; [lia|]. intros _.
    split; rewrite !map_map; apply map_ext; intros z; reflexivity.
Qed.

Lemma impedance_linear_in_wake_witness :
  let r1 := after (calc_impedance two_sample_doubled) in
  freq (results r1) = freq (results two_sample_impedance) /\
  ReZlong (results r1) = map (Rmult 2) (ReZlong (results two_sample_impedance)) /\
  ImZlong (results r1) = map (Rmult 2) (ImZlong (results two_sample_impedance)) /\
  naxis (results r1) = naxis (results two_sample_impedance) /\
  ImZoN (results r1) = map (Rmult 2) (ImZoN (results two_sample_impedance)).
Proof.
  destruct (impedance_linear_in_wake 2 two_sample_wake two_sample_doubled
              two_sample_impedance (after (calc_impedance two_sample_doubled)))
    as (Hf & H0 & _); try reflexivity.
  - exact two_sample_spectrum.
  - apply after_returns. apply calc_impedance_returns; simpl; try discriminate; try lra.
    apply Ringpar_init_omega0.
  - split; [exact Hf|]. apply H0. reflexivity.
Defined.

Lemma cutoff_mask_omega (w : R) (fr : list R) :
  map (fun wi => leb (Rabs wi) w) (map (fun f => 2 * PI * f) fr) = cutoff_mask w fr.
Proof. unfold cutoff_mask. now rewrite map_map. Qed.

(** X13.  [calc_impedance] reads nothing that it writes: called on the
    structure it returned, it returns that structure again. *)
Theorem calc_impedance_idempotent (g g' : GlobData) :
  calc_impedance g = Ret g' -> calc_impedance g' = Ret g'.
Proof.
  intros H. apply calc_impedance_steps in H.
  destruct H as (sf & sl & dt0 & F & fr0 & w & El & Ef & Ed & EF & Efr & Ew & H).
  cbv zeta in H. destruct H as [_ H].
  assert (Hrun : forall r, s r = s (results g) -> W r = W (results g) ->
            calc_impedance (with_results g r) =
            let fr := roll fr0 (length (W (results g)) / 2) in
            let Z := raw_spectrum (dt0 / c_light) sf (bunlen (simpar g) / c_light)
                       fr (roll F (length (W (results g)) / 2)) in
            let indcs := cutoff_mask w fr in
            let fr' := select indcs fr in
            let imz := map (fun z => - snd z) (select indcs Z) in
            if (m (simpar g) =? 0)%Z then
              nax <- array_div_scalar (select (zon_mask fr') fr')
                       (omega0 (ringpar g) / (2 * PI)) ;;
              zon <- array_div (select (zon_mask fr') imz) nax ;;
              Ret (with_results (with_results g r)
                     (set_long r fr' (map fst (select indcs Z)) imz nax zon))
            else if (0 <? m (simpar g))%Z then
              Ret (with_results (with_results g r)
                     (set_trans r fr' (map snd (select indcs Z))
                        (map fst (select indcs Z))))
            else Ret (with_results g r)).
  { intros r Hs HW. unfold calc_impedance.
    cbn [results with_results simpar ringpar]. rewrite Hs, HW.
    rewrite El, Ef. cbn [bind]. rewrite Ed. cbn [bind].
    rewrite length_map, EF. cbn [bind]. rewrite Efr. cbn [bind].
    rewrite Ew. cbn [bind]. rewrite cutoff_mask_omega. reflexivity. }
  destruct H as [[Hz (nax & zon & En & Ez & ->)]|[[Hp ->]|[Hn ->]]].
  - rewrite Hrun by reflexivity. cbv zeta. rewrite Hz. cbn [Z.eqb].
    rewrite En. cbn [bind]. rewrite Ez. reflexivity.
  - rewrite Hrun by reflexivity. cbv zeta.
    assert (E0 : (m (simpar g) =? 0)%Z = false) by (apply Z.eqb_neq; lia).
    assert (E1 : (0 <? m (simpar g))%Z = true) by (now apply Z.ltb_lt).
    rewrite E0, E1. reflexivity.
  - assert (Eg : g = with_results g (results g)) by (now destruct g).
    rewrite Eg at 1. rewrite Hrun by reflexivity. cbv zeta.
    assert (E0 : (m (simpar g) =? 0)%Z = false) by (apply Z.eqb_neq; lia).
    assert (E1 : (0 <? m (simpar g))%Z = false) by (apply Z.ltb_ge; lia).
    rewrite E0, E1. now rewrite <- Eg.
Qed.

Lemma calc_impedance_idempotent_witness :
  calc_impedance two_sample_impedance = Ret two_sample_impedance.
Proof.
  apply (calc_impedance_idempotent two_sample_wake). exact two_sample_spectrum.
Defined.

(* ================================================================== *)
(** ** From the files to the factors *)





(* ================================================================== *)
(** ** The factors: sign, monotonicity, exceptions, the wake integral *)

Lemma trapezoid_nonneg (xs ys : list R) :
  StronglySorted Rle xs -> Forall (Rle 0) ys -> 0 <= trapezoid xs ys.
Proof.
  intros Hx. revert ys. induction Hx as [|x0 xs Hx IH H0]; intros ys Hy.
  - simpl. lra.
  - destruct xs as [|x1 xs]; [simpl; lra|].
    destruct ys as [|y0 [|y1 ys]]; [simpl; lra|simpl; lra|].
    change (0 <= (x1 - x0) * (y1 + y0) / 2 + trapezoid (x1 :: xs) (y1 :: ys)).
    inversion Hy as [|? ? Hy0 Hy']; subst.
    pose proof (IH _ Hy') as Ht.
    inversion Hy' as [|? ? Hy1 _]; subst.
    inversion H0 as [|? ? H01 _]; subst.
    assert (0 <= (x1 - x0) * (y1 + y0)) by (apply Rmult_le_pos; lra).
    lra.
Qed.

Lemma trapezoid_le (xs ys ys' : list R) :
  StronglySorted Rle xs -> Forall2 Rle ys ys' ->
  trapezoid xs ys <= trapezoid xs ys'.
Proof.
  intros Hx. revert ys ys'. induction Hx as [|x0 xs Hx IH H0]; intros ys ys' Hy.
  - simpl. lra.
  - destruct xs as [|x1 xs]; [simpl; lra|].
    inversion Hy as [|y0 y0' t t' Hy0 Hy']; subst; [simpl; lra|].
    pose proof (IH _ _ Hy') as Ht.
    inversion Hy' as [|y1 y1' u u' Hy1 _]; subst; [simpl; lra|].
    change ((x1 - x0) * (y1 + y0) / 2 + trapezoid (x1 :: xs) (y1 :: u)
            <= (x1 - x0) * (y1' + y0') / 2 + trapezoid (x1 :: xs) (y1' :: u')).
    inversion H0 as [|? ? H01 _]; subst.
    assert ((x1 - x0) * (y1 + y0) <= (x1 - x0) * (y1' + y0'))
      by (apply Rmult_le_compat_l; lra).
    lra.
Qed.

Lemma StronglySorted_map_mono (f : R -> R) (l : list R) :
  (forall a b, a <= b -> f a <= f b) ->
  StronglySorted Rle l -> StronglySorted Rle (map f l).
Proof.
  intros Hf Hl. induction Hl as [|x l Hl IH Hx]; simpl; constructor; auto.
  rewrite Forall_map. eapply Forall_impl; [|exact Hx]. intros a. apply Hf.
Qed.

Lemma wavenumber_of_sorted (fr : list R) :
  StronglySorted Rle fr -> StronglySorted Rle (wavenumber_of fr).
Proof.
  apply StronglySorted_map_mono. intros a b Hab.
  pose proof PI_RGT_0. unfold c_light.
  apply Rmult_le_compat_r; [lra|]. apply Rmult_le_compat_l; lra.
Qed.

Lemma exp_le (a b : R) : a <= b -> exp a <= exp b.
Proof.
  intros [H| ->]; [left; now apply exp_increasing|right; reflexivity].
Qed.

Lemma gauss_weighted_nonneg (Zs xs : list R) (a : R) :
  Forall (Rle 0) Zs -> Forall (Rle 0) (gauss_weighted Zs xs a).
Proof.
  unfold gauss_weighted. intros HZ. revert xs.
  induction HZ as [|z Zs Hz HZ IH]; intros [|x xs]; simpl; constructor; auto.
  apply Rmult_le_pos; [exact Hz|left; apply exp_pos].
Qed.

Lemma gauss_weighted_antitone (Zs xs : list R) (a b : R) :
  Forall (Rle 0) Zs -> 0 <= a <= b ->
  Forall2 Rle (gauss_weighted Zs xs b) (gauss_weighted Zs xs a).
Proof.
  unfold gauss_weighted. intros HZ Hab. revert xs.
  induction HZ as [|z Zs Hz HZ IH]; intros [|x xs]; simpl; constructor; auto.
  apply Rmult_le_compat_l; [exact Hz|]. apply exp_le.
  assert (0 <= x ^ 2) by (apply pow2_ge_0).
  assert (a ^ 2 <= b ^ 2) by nra.
  nra.
Qed.

Lemma wavenumber_factor_nonneg (Zs fr : list R) (sig : R) :
  StronglySorted Rle fr -> Forall (Rle 0) Zs -> 0 <= wavenumber_factor Zs fr sig.
Proof.
  intros Hf HZ. unfold wavenumber_factor.
  pose proof (trapezoid_nonneg _ _ (wavenumber_of_sorted fr Hf)
                (gauss_weighted_nonneg Zs (wavenumber_of fr) sig HZ)) as Ht.
  pose proof PI_RGT_0.
  assert (0 < c_light / (2 * PI) * 1e-12).
  { unfold c_light. apply Rmult_lt_0_compat; [|lra].
    apply Rdiv_lt_0_compat; lra. }
  apply Rmult_le_pos; lra.
Qed.

Lemma wavenumber_factor_antitone (Zs fr : list R) (a b : R) :
  StronglySorted Rle fr -> Forall (Rle 0) Zs -> 0 <= a <= b ->
  wavenumber_factor Zs fr b <= wavenumber_factor Zs fr a.
Proof.
  intros Hf HZ Hab. unfold wavenumber_factor.
  pose proof (trapezoid_le _ _ _ (wavenumber_of_sorted fr Hf)
                (gauss_weighted_antitone Zs (wavenumber_of fr) a b HZ Hab)) as Ht.
  pose proof PI_RGT_0.
  assert (0 < c_light / (2 * PI) * 1e-12).
  { unfold c_light. apply Rmult_lt_0_compat; [|lra].
    apply Rdiv_lt_0_compat; lra. }
  apply Rmult_le_compat_l; lra.
Qed.

(** X15.  On an ascending frequency axis, an impedance that is nowhere
    negative gives a factor curve that is nowhere negative; with a positive
    revolution frequency and harmonic number the six dissipated powers of
    [Plossvec] are not negative either. *)
Theorem factor_nonnegative (q : quantity) (g g' : GlobData) :
  StronglySorted Rle (freq (results g)) ->
  Forall (Rle 0) (impedance_in q (results g)) ->
  length (impedance_in q (results g)) = length (freq (results g)) ->
  calc_factor q g = Ret g' ->
  Forall (Rle 0) (factor_curve q (results g')) /\
  (q = Loss -> 0 < omega0 (ringpar g) -> (0 < h (ringpar g))%Z ->
   Forall (Rle 0) (Plossvec (results g'))).
Proof.
  intros Hf HZ Hlen H. split.
  - rewrite (factor_curve_eq q g g' Hlen H). rewrite Forall_map.
    apply Forall_forall. intros sig _. now apply wavenumber_factor_nonneg.
  - intros -> Hom Hh. simpl in *.
    rewrite (Plossvec_eq g g' Hlen H). rewrite Forall_map.
    apply Forall_forall. intros p _.
    pose proof (wavenumber_factor_nonneg _ _ (fst p) Hf HZ) as Hw.
    assert (HT : 0 < T0_of g).
    { unfold T0_of. pose proof PI_RGT_0. apply Rdiv_lt_0_compat; lra. }
    assert (Hh' : 0 < IZR (h (ringpar g))) by (now apply IZR_lt).
    assert (0 <= snd p ^ 2) by (apply pow2_ge_0).
    apply Rmult_le_pos; [|left; now apply Rinv_0_lt_compat].
    apply Rmult_le_pos; [|lra]. apply Rmult_le_pos; [|lra].
    apply Rmult_le_pos; assumption.
Qed.

Lemma two_sample_sorted : StronglySorted Rle (freq (results two_sample_impedance)).
Proof. simpl. repeat constructor. lra. Qed.

Lemma two_sample_passive : Forall (Rle 0) (ReZlong (results two_sample_impedance)).
Proof. simpl. repeat constructor; lra. Qed.

Lemma factor_nonnegative_witness :
  let g' := after (calc_loss_factor two_sample_impedance) in
  Forall (Rle 0) (klossZ (results g')) /\ Forall (Rle 0) (Plossvec (results g')).
Proof.
  assert (Hom : 0 < omega0 (ringpar two_sample_impedance)).
  { simpl. pose proof PI_RGT_0. apply Rdiv_lt_0_compat; lra. }
  destruct (factor_nonnegative Loss two_sample_impedance
              (after (calc_loss_factor two_sample_impedance))
              two_sample_sorted two_sample_passive eq_refl
              (after_returns _ two_sample_loss_returns)) as [H1 H2].
  split; [exact H1|]. apply H2; [reflexivity|exact Hom|reflexivity].
Defined.

Lemma linspace_nondecreasing (a b : R) (n i : nat) :
  a <= b -> (i <= n)%nat ->
  a <= nth i (linspace a b (S (S n))) 0 <= nth (S i) (linspace a b (S (S n))) 0.
Proof.
  intros Hab Hi.
  assert (Hn : 0 < INR (S n)) by (apply lt_0_INR; lia).
  assert (Hd : 0 <= (b - a) / INR (S n)).
  { apply Rmult_le_pos; [lra|]. left. now apply Rinv_0_lt_compat. }
  rewrite (nth_linspace_inner a b n i Hi).
  assert (H0 : 0 <= INR i * ((b - a) / INR (S n))).
  { apply Rmult_le_pos; [apply pos_INR|exact Hd]. }
  split; [lra|].
  destruct (Nat.eq_dec i n) as [->|Hne].
  - rewrite nth_linspace_last.
    assert (INR n * ((b - a) / INR (S n)) <= b - a); [|lra].
    rewrite S_INR in *. unfold Rdiv. rewrite <- Rmult_assoc.
    apply (Rmult_le_reg_r (INR n + 1)); [lra|].
    rewrite Rmult_assoc, Rinv_l by lra. pose proof (pos_INR n). nra.
  - rewrite (nth_linspace_inner a b n (S i)) by lia.
    rewrite (S_INR i). nra.
Qed.

(** X16.  On an ascending frequency axis and for an impedance that is nowhere
    negative, with [0 <= bunlen <= sigmamax], the factor curve never rises
    along the scan: a longer bunch has a smaller or equal factor. *)
Theorem factor_falls_with_bunch_length (q : quantity) (g g' : GlobData) :
  StronglySorted Rle (freq (results g)) ->
  Forall (Rle 0) (impedance_in q (results g)) ->
  length (impedance_in q (results g)) = length (freq (results g)) ->
  0 <= bunlen (simpar g) <= sigmamax (ringpar g) ->
  calc_factor q g = Ret g' ->
  forall i, (S i < 100)%nat ->
    nth (S i) (factor_curve q (results g')) 0 <= nth i (factor_curve q (results g')) 0.
Proof.
  intros Hf HZ Hlen Hb H i Hi.
  rewrite (factor_curve_eq q g g' Hlen H).
  destruct (calc_factor_inv q g g' H) as [-> _].
  change 100%nat with (S (S 98)) in *.
  rewrite !nth_map_0 by (rewrite length_linspace; lia).
  assert (Hi' : (i <= 98)%nat) by lia.
  destruct (linspace_nondecreasing _ _ 98 i (proj2 Hb) Hi') as [H1 H2].
  apply wavenumber_factor_antitone; try assumption. lra.
Qed.

Lemma factor_falls_with_bunch_length_witness :
  let g' := after (calc_loss_factor two_sample_impedance) in
  nth 1 (klossZ (results g')) 0 <= nth 0 (klossZ (results g')) 0.
Proof.
  apply (factor_falls_with_bunch_length Loss two_sample_impedance).
  - exact two_sample_sorted.
  - exact two_sample_passive.
  - reflexivity.
  - simpl. lra.
  - apply (after_returns (calc_loss_factor two_sample_impedance)).
    exact two_sample_loss_returns.
  - lia.
Defined.





